(** * Offline transport: durable queue and retry engine

    A shallow embedding of
      - [packages/core/src/transports/offline.ts] ([makeOfflineTransport]:
        [shouldQueue], [flushIn], [flushWithBackOff], [send], [flush]) and
      - the IndexedDB queue of the browser offline transport
        ([insert], [pop], [size], [clear], [createIndexedDbStore]).

    Numbers are modelled as [Z] (every number the engine computes is an
    integer far below 2^53, so IEEE doubles are exact on them); NaN and
    fractional arguments are outside the model.  Promises are modelled by
    the value they settle with ([Outcome]).  An asynchronous function is run
    to the point where it either settles or parks on the promise of a timer
    it armed; what the timer does later is the separate event [fire].  Calls
    are followed one at a time: where the code awaits, no other call of the
    engine runs in between. *)

From Stdlib Require Import ZArith List String Bool Lia.
From Stdlib Require Import Sorted.
Import ListNotations.
Open Scope string_scope.
Open Scope Z_scope.

(** ** Promise outcomes *)

Definition Error := string.

Inductive Outcome (A : Type) : Type :=
| Resolved (a : A)
| Rejected (e : Error).
Arguments Resolved {A} a.
Arguments Rejected {A} e.

(** JavaScript truthiness of the values the code tests. *)
Definition truthy_number (n : Z) : bool := negb (n =? 0).
Definition truthy_string (s : string) : bool := negb (String.eqb s "").

(** ** The IndexedDB object store and the queue functions on it *)

Module Queue.

(** [type ItemValue = Uint8Array | string]: the serialized envelope. *)
Definition ItemValue := string.

(** An [IDBObjectStore] with out-of-line integer keys: entries are held in
    ascending key order, one entry per key. *)
Definition ObjectStore := list (Z * ItemValue).

(** [store.getAllKeys()]: the keys in ascending order. *)
Definition getAllKeys (store : ObjectStore) : list Z := map fst store.

(** [store.put(value, key)]: adds the record, replacing a record that
    already has this key. *)
Fixpoint put (store : ObjectStore) (value : ItemValue) (key : Z) : ObjectStore :=
  match store with
  | [] => [(key, value)]
  | (k, v) :: rest =>
      if key <? k then (key, value) :: (k, v) :: rest
      else if key =? k then (key, value) :: rest
      else (k, v) :: put rest value key
  end.

(** [store.get(key)] *)
Fixpoint get (store : ObjectStore) (key : Z) : option ItemValue :=
  match store with
  | [] => None
  | (k, v) :: rest => if key =? k then Some v else get rest key
  end.

(** [store.delete(key)] *)
Fixpoint delete (store : ObjectStore) (key : Z) : ObjectStore :=
  match store with
  | [] => []
  | (k, v) :: rest => if key =? k then delete rest key else (k, v) :: delete rest key
  end.

(** [Math.max(...keys, 0)] *)
Definition max_key (keys : list Z) : Z := fold_right Z.max 0 keys.

(** [keys[offset]]: [undefined] outside the array. *)
Definition index (keys : list Z) (offset : Z) : option Z :=
  if offset <? 0 then None else nth_error keys (Z.to_nat offset).

(** [insert(store, value, maxQueueSize, toStart = false)].  The key
    arithmetic is that of integers: [Math.max(...keys, 0) + 1] is exact on
    numbers as long as the keys stay below 2^53. *)
Definition insert (store : ObjectStore) (value : ItemValue) (maxQueueSize : Z)
           (toStart : bool) : Outcome unit * ObjectStore :=
  let keys := getAllKeys store in
  if maxQueueSize <=? Z.of_nat (List.length keys) then
    (Resolved tt, store)
  else
    let key := if toStart then 0 else max_key keys + 1 in
    (Resolved tt, put store value key).

(** [pop(store, offset = 0)].  With a non-empty store and [keys[offset]]
    undefined, [store.get(undefined)] throws a DataError inside the request
    callback, which aborts the transaction: the promise rejects and
    nothing is deleted. *)
Definition pop (store : ObjectStore) (offset : Z)
  : Outcome (option ItemValue) * ObjectStore :=
  let keys := getAllKeys store in
  match keys with
  | [] => (Resolved None, store)
  | _ :: _ =>
      match index keys offset with
      | Some key => (Resolved (get store key), delete store key)
      | None => (Rejected "DataError", store)
      end
  end.

(** [size(store)] *)
Definition size (store : ObjectStore) : Z := Z.of_nat (List.length (getAllKeys store)).

(** [clear(store)] *)
Definition clear (store : ObjectStore) : Outcome unit * ObjectStore :=
  (Resolved tt, []).

(** One call of the queue's API, for sequences of operations. *)
Inductive Op : Type :=
| OpInsert (value : ItemValue) (toStart : bool)
| OpPop (offset : Z)
| OpClear.

Definition apply (maxQueueSize : Z) (store : ObjectStore) (op : Op) : ObjectStore :=
  match op with
  | OpInsert value toStart => snd (insert store value maxQueueSize toStart)
  | OpPop offset => snd (pop store offset)
  | OpClear => snd (clear store)
  end.

(** The stores a queue that starts empty can get into. *)
Definition Reachable (maxQueueSize : Z) (store : ObjectStore) : Prop :=
  exists ops, store = fold_left (apply maxQueueSize) ops [].

(** A sequence of inserts. *)
Definition insertAll (maxQueueSize : Z) (store : ObjectStore)
           (reqs : list (ItemValue * bool)) : ObjectStore :=
  fold_left (fun s r => snd (insert s (fst r) maxQueueSize (snd r))) reqs store.

(** Keys of a store that started empty are never negative. *)
Definition keysNonNegative (store : ObjectStore) : Prop :=
  Forall (fun k => 0 <= k) (getAllKeys store).


End Queue.

(** ** Envelopes and responses *)

(** An envelope item [[itemHeaders, payload]]; only [itemHeaders.type] is
    looked at. *)
Record EnvelopeItem : Type := {
  item_type : string;
  item_payload : string;
}.

(** [Envelope = [headers, items]] *)
Record Envelope : Type := {
  env_headers : string;
  env_items : list EnvelopeItem;
}.

(** [TransportMakeRequestResponse.headers] *)
Record ResponseHeaders : Type := {
  x_sentry_rate_limits : option string;
  retry_after : option string;
}.

(** [TransportMakeRequestResponse] *)
Record Response : Type := {
  statusCode : option Z;
  headers : option ResponseHeaders;
}.

(** The object [{}]. *)
Definition emptyResponse : Response := {| statusCode := None; headers := None |}.

(** What [transport.send(envelope)] settles with: a response, nothing
    ([void]), or a rejection. *)
Definition TransportResult := Outcome (option Response).

(** Modelled from the spec: [envelopeContainsItemType(env, kinds)] of
    [@sentry/utils] is not among the sources; it holds when the envelope's
    item-type set intersects [kinds]. *)
Definition envelopeContainsItemType (env : Envelope) (kinds : list string) : bool :=
  existsb (fun item => existsb (String.eqb (item_type item)) kinds) (env_items env).

(** The codec and header parser of [@sentry/utils], which the engine consumes
    and which are not among the sources. *)
Record External : Type := {
  serializeEnvelope : Envelope -> Outcome Queue.ItemValue;
  parseEnvelope : Queue.ItemValue -> Outcome Envelope;
  parseRetryAfterHeader : string -> Z;
}.

(** ** Options *)

Record OfflineTransportOptions : Type := {
  (** whether [options.createStore] is given, so that [store] is defined *)
  createStore : bool;
  flushAtStartup : bool;
  fullOffline : bool;
  shouldStore : option (Envelope -> Error -> Z -> bool);
  (** [BrowserOfflineTransportOptions.maxQueueSize] *)
  maxQueueSize : option Z;
}.

(** ** Constants *)

Definition MIN_DELAY : Z := 100.
Definition START_DELAY : Z := 5000.
Definition MAX_DELAY : Z := 3600000.

(** ** Engine state *)

(** A timeout pending in the host: its handle, its delay and the
    [isFlushingHead] its callback closes over. *)
Record Timer : Type := {
  timer_id : Z;
  timer_delay : Z;
  timer_head : bool;
}.

(** Calls to the collaborators the engine is handed. *)
Inductive Call : Type :=
| CallTransportSend (env : Envelope)
| CallTransportFlush (t : option Z)
| CallShouldStore (env : Envelope) (error : Error) (delay : Z).

Record Engine : Type := {
  (** the persistent object store behind [store] *)
  idb : Queue.ObjectStore;
  retryDelay : Z;
  flushTimer : option Z;
  sizeToFlush : Z;
  flushedCnt : Z;
  (** the host's table of pending timeouts and the next handle it hands out *)
  pending : list Timer;
  nextTimerId : Z;
  (** calls made so far, latest first *)
  calls : list Call;
}.

Definition set_idb (v : Queue.ObjectStore) (st : Engine) : Engine :=
  {| idb := v; retryDelay := retryDelay st; flushTimer := flushTimer st;
     sizeToFlush := sizeToFlush st; flushedCnt := flushedCnt st;
     pending := pending st; nextTimerId := nextTimerId st; calls := calls st |}.

Definition set_retryDelay (v : Z) (st : Engine) : Engine :=
  {| idb := idb st; retryDelay := v; flushTimer := flushTimer st;
     sizeToFlush := sizeToFlush st; flushedCnt := flushedCnt st;
     pending := pending st; nextTimerId := nextTimerId st; calls := calls st |}.

Definition set_flushTimer (v : option Z) (st : Engine) : Engine :=
  {| idb := idb st; retryDelay := retryDelay st; flushTimer := v;
     sizeToFlush := sizeToFlush st; flushedCnt := flushedCnt st;
     pending := pending st; nextTimerId := nextTimerId st; calls := calls st |}.

Definition set_sizeToFlush (v : Z) (st : Engine) : Engine :=
  {| idb := idb st; retryDelay := retryDelay st; flushTimer := flushTimer st;
     sizeToFlush := v; flushedCnt := flushedCnt st;
     pending := pending st; nextTimerId := nextTimerId st; calls := calls st |}.

Definition set_flushedCnt (v : Z) (st : Engine) : Engine :=
  {| idb := idb st; retryDelay := retryDelay st; flushTimer := flushTimer st;
     sizeToFlush := sizeToFlush st; flushedCnt := v;
     pending := pending st; nextTimerId := nextTimerId st; calls := calls st |}.

Definition set_pending (v : list Timer) (st : Engine) : Engine :=
  {| idb := idb st; retryDelay := retryDelay st; flushTimer := flushTimer st;
     sizeToFlush := sizeToFlush st; flushedCnt := flushedCnt st;
     pending := v; nextTimerId := nextTimerId st; calls := calls st |}.

Definition set_nextTimerId (v : Z) (st : Engine) : Engine :=
  {| idb := idb st; retryDelay := retryDelay st; flushTimer := flushTimer st;
     sizeToFlush := sizeToFlush st; flushedCnt := flushedCnt st;
     pending := pending st; nextTimerId := v; calls := calls st |}.

Definition record_call (c : Call) (st : Engine) : Engine :=
  {| idb := idb st; retryDelay := retryDelay st; flushTimer := flushTimer st;
     sizeToFlush := sizeToFlush st; flushedCnt := flushedCnt st;
     pending := pending st; nextTimerId := nextTimerId st; calls := c :: calls st |}.

(** ** The host's timers *)

(** [setTimeout(callback, delay)]: a fresh handle. *)
Definition setTimeout (delay : Z) (isFlushingHead : bool) (st : Engine) : Z * Engine :=
  let id := nextTimerId st in
  (id, set_nextTimerId (id + 1)
         (set_pending ({| timer_id := id; timer_delay := delay;
                          timer_head := isFlushingHead |} :: pending st) st)).

(** [clearTimeout(handle)] *)
Definition clearTimeout (id : Z) (st : Engine) : Engine :=
  set_pending (filter (fun t => negb (timer_id t =? id)) (pending st)) st.

(** [if (flushTimer)] *)
Definition flushTimerSet (st : Engine) : bool :=
  match flushTimer st with
  | Some id => truthy_number id
  | None => false
  end.

(** The timeout [flushTimer] refers to, when it is pending. *)
Definition armedTimer (st : Engine) : option Timer :=
  match flushTimer st with
  | Some id => find (fun t => timer_id t =? id) (pending st)
  | None => None
  end.

(** The replay and client-report item types [shouldQueue] refuses. *)
Definition notQueuedTypes : list string :=
  ["replay_event"; "replay_recording"; "client_report"].

Section Engine.

Variable ext : External.
Variable options : OfflineTransportOptions.

(** *** The store adapter ([createIndexedDbStore]) *)

(** [options.maxQueueSize || 30] *)
Definition queueCapacity : Z :=
  match maxQueueSize options with
  | Some n => if truthy_number n then n else 30
  | None => 30
  end.

(** [store.insert(env, toStart)]: errors of the codec are swallowed. *)
Definition store_insert (env : Envelope) (toStart : bool) (st : Engine) : Engine :=
  match serializeEnvelope ext env with
  | Resolved serialized =>
      set_idb (snd (Queue.insert (idb st) serialized queueCapacity toStart)) st
  | Rejected _ => st
  end.

(** [store.pop(offset)]: [undefined] when nothing is found or on an
    error. *)
Definition store_pop (offset : Z) (st : Engine) : option Envelope * Engine :=
  match Queue.pop (idb st) offset with
  | (Resolved deserialized, idb') =>
      let st' := set_idb idb' st in
      match deserialized with
      | Some d =>
          if truthy_string d then
            match parseEnvelope ext d with
            | Resolved p => (Some p, st')
            | Rejected _ => (None, st')
            end
          else (None, st')
      | None => (None, st')
      end
  | (Rejected _, _) => (None, st)
  end.

(** [store.size()] *)
Definition store_size (st : Engine) : Z := Queue.size (idb st).

(** [store.clear()] *)
Definition store_clear (st : Engine) : Engine :=
  set_idb (snd (Queue.clear (idb st))) st.

(** *** [makeOfflineTransport] *)

(** [shouldQueue(env, error, retryDelay)] *)
Definition shouldQueue (env : Envelope) (error : Error) (delay : Z) (st : Engine)
  : bool * Engine :=
  if envelopeContainsItemType env notQueuedTypes then (false, st)
  else
    match shouldStore options with
    | Some f => (f env error delay, record_call (CallShouldStore env error delay) st)
    | None => (true, st)
    end.

(** [flushIn(delay, isFlushingHead)], up to the promise it returns. *)
Definition flushIn (delay : Z) (isFlushingHead : bool) (st : Engine) : Engine :=
  if negb (createStore options) then st
  else
    let st1 :=
      match flushTimer st with
      | Some id => if truthy_number id then clearTimeout id st else st
      | None => st
      end in
    let '(id, st2) := setTimeout delay isFlushingHead st1 in
    set_flushTimer (Some id) st2.

(** [flushWithBackOff(isFlushingHead)] *)
Definition flushWithBackOff (isFlushingHead : bool) (st : Engine) : Engine :=
  if flushTimerSet st then st
  else flushIn (retryDelay st) isFlushingHead st.

(** The first test of [send]: [store && options.fullOffline && !isFlushingHead] *)
Definition storesOnly (isFlushingHead : bool) : bool :=
  createStore options && fullOffline options && negb isFlushingHead.

(** [result.headers && result.headers['retry-after']], when truthy. *)
Definition retryAfterHeader (result : Response) : option string :=
  match headers result with
  | Some h =>
      match retry_after h with
      | Some v => if truthy_string v then Some v else None
      | None => None
      end
  | None => None
  end.

(** [result.statusCode || 0] *)
Definition statusOrZero (result : Response) : Z :=
  match statusCode result with
  | Some n => if truthy_number n then n else 0
  | None => 0
  end.

(** The delay of the next drain after [transport.send] resolved with
    [result]; [None] is the early [return result] on a server error. *)
Definition nextDelay (result : option Response) : option Z :=
  match result with
  | Some r =>
      match retryAfterHeader r with
      | Some v => Some (parseRetryAfterHeader ext v)
      | None => if 400 <=? statusOrZero r then None else Some MIN_DELAY
      end
  | None => Some MIN_DELAY
  end.

(** [Math.max(Math.min(retryDelay * 2, MAX_DELAY), START_DELAY)] *)
Definition backOff (delay : Z) : Z :=
  Z.max (Z.min (delay * 2) MAX_DELAY) START_DELAY.

(** [send(envelope, isFlushingHead)] with the inner transport settling with
    [tr].  The result is what the promise settles with, whether the call
    parks on the promise of a timer it armed before it settles, and the
    state it leaves.  The call is followed through its awaits (the inner
    transport, [shouldStore], the store) with no other call of the engine
    running in between. *)
Definition send (envelope : Envelope) (isFlushingHead : bool) (tr : TransportResult)
           (st : Engine) : Outcome (option Response) * bool * Engine :=
  if storesOnly isFlushingHead then
    (Resolved (Some emptyResponse), false, store_insert envelope false st)
  else
    let st := record_call (CallTransportSend envelope) st in
    match tr with
    | Resolved result =>
        match nextDelay result with
        | None => (Resolved result, false, st)
        | Some delay =>
            let st := set_retryDelay 0 st in
            if isFlushingHead then
              (Resolved result, createStore options, flushIn delay isFlushingHead st)
            else
              (Resolved result, false, flushIn delay false st)
        end
    | Rejected e =>
        let st := set_retryDelay (backOff (retryDelay st)) st in
        if createStore options then
          let '(queue, st) := shouldQueue envelope e (retryDelay st) st in
          if queue then
            if isFlushingHead then
              let st := store_insert envelope true st in
              let st := set_flushedCnt (flushedCnt st - 1) st in
              (Resolved (Some emptyResponse), negb (flushTimerSet st),
               flushWithBackOff isFlushingHead st)
            else
              let st := store_insert envelope false st in
              (Resolved (Some emptyResponse), false, flushWithBackOff false st)
          else (Rejected e, false, st)
        else (Rejected e, false, st)
    end.

(** The end of the timer callback: the counters are zeroed when a head
    drain has flushed all it set out to. *)
Definition flushEnd (isFlushingHead : bool) (st : Engine) : Engine :=
  if isFlushingHead && (flushedCnt st =? sizeToFlush st) then
    set_flushedCnt 0 (set_sizeToFlush 0 st)
  else st.

(** The callback [flushIn] hands to [setTimeout].  When the [send] it
    awaits parks on a further timer, the rest of the callback runs after
    that timer's callback, whose own [flushEnd] has then made the same
    test on the same counters. *)
Definition timerCallback (isFlushingHead : bool) (tr : TransportResult) (st : Engine)
  : Engine :=
  let st := set_flushTimer None st in
  let offset := if isFlushingHead then 0 else sizeToFlush st - flushedCnt st in
  let canPop := if isFlushingHead then flushedCnt st <? sizeToFlush st else true in
  let '(found, st) := if canPop then store_pop offset st else (None, st) in
  match found with
  | Some env =>
      let st := if isFlushingHead then set_flushedCnt (flushedCnt st + 1) st else st in
      let '(_, parks, st) := send env isFlushingHead tr st in
      if parks then st else flushEnd isFlushingHead st
  | None => flushEnd isFlushingHead st
  end.

(** The host runs the callback of the pending timeout [id], which leaves
    its table as it fires. *)
Definition fire (id : Z) (tr : TransportResult) (st : Engine) : Engine :=
  match find (fun t => timer_id t =? id) (pending st) with
  | Some t => timerCallback (timer_head t) tr (clearTimeout id st)
  | None => st
  end.

(** [t ?? 0 < 0]: the comparison binds tighter than [??], so this is
    [t ?? (0 < 0)], the truthiness of [t] when [t] is given. *)
Definition flushGuard (t : option Z) : bool :=
  match t with
  | Some n => truthy_number n
  | None => 0 <? 0
  end.

(** [flush(t)], with [inner] what [transport.flush(t)] resolves with: the
    value the promise settles with, and the state the call leaves up to the
    point where it settles or, in the drain branch, parks on the timer it
    armed ([flushParks]). *)
Definition flush (t : option Z) (inner : bool) (st : Engine) : bool * Engine :=
  if fullOffline options then
    if flushGuard t then
      (true, if createStore options then store_clear st else st)
    else if 0 <? sizeToFlush st then
      (false, st)
    else
      let n := if createStore options then store_size st else 0 in
      let st := set_sizeToFlush n st in
      if 0 <? sizeToFlush st then (true, flushWithBackOff true st)
      else (true, st)
  else
    (inner, record_call (CallTransportFlush t) st).

(** Whether [flush(t)] parks: in the drain branch, with entries to flush,
    [await flushWithBackOff(true)] waits on the promise of the timer that
    [flushIn] arms, so the call settles only when that timer's callback, and
    the chain of callbacks it waits on, has finished.  With a timer already
    set [flushWithBackOff] returns at once, and nothing is waited on. *)
Definition flushParks (t : option Z) (st : Engine) : bool :=
  if fullOffline options then
    if flushGuard t then false
    else if 0 <? sizeToFlush st then false
    else
      let n := if createStore options then store_size st else 0 in
      let st := set_sizeToFlush n st in
      (0 <? sizeToFlush st) && negb (flushTimerSet st) && createStore options
  else false.

(** The engine as [makeOfflineTransport] leaves it, over the object store
    a previous session left behind. *)
Definition makeOfflineTransport (persisted : Queue.ObjectStore) : Engine :=
  let st := {| idb := persisted; retryDelay := 0; flushTimer := None;
               sizeToFlush := 0; flushedCnt := 0;
               pending := []; nextTimerId := 1; calls := [] |} in
  if flushAtStartup options then flushWithBackOff false st else st.

(** What can happen to an engine: a caller sends or flushes, or a timer
    fires. *)
Inductive Event : Type :=
| EvSend (env : Envelope) (tr : TransportResult)
| EvFlush (t : option Z) (inner : bool)
| EvTimer (id : Z) (tr : TransportResult).

(** One event, run until it settles or parks before the next one starts. *)
Definition handle (st : Engine) (ev : Event) : Engine :=
  match ev with
  | EvSend env tr => snd (send env false tr st)
  | EvFlush t inner => snd (flush t inner st)
  | EvTimer id tr => fire id tr st
  end.

Definition run (st : Engine) (evs : list Event) : Engine := fold_left handle evs st.

Inductive Reachable : Engine -> Prop :=
| reach_init persisted : Reachable (makeOfflineTransport persisted)
| reach_step st ev : Reachable st -> Reachable (handle st ev).

(** A sequence of [send] calls, each with its [isFlushingHead] and the
    outcome of the inner transport. *)
Definition sendAll (st : Engine) (reqs : list (Envelope * bool * TransportResult))
  : Engine :=
  fold_left (fun s r => snd (send (fst (fst r)) (snd (fst r)) (snd r) s)) reqs st.

End Engine.

(** ** Notions the properties are stated with *)

Section Notions.

Variable options : OfflineTransportOptions.

(** Whether [send] returns the server's error response at once: the response
    is there, has no usable retry-after header, and its status is 400 or
    more. *)
Definition returnsEarly (result : option Response) : bool :=
  match result with
  | Some r =>
      match retryAfterHeader r with
      | Some _ => false
      | None => 400 <=? statusOrZero r
      end
  | None => false
  end.

(** The number of failed live sends since the last live send that went
    through (or since the start): a rejection of the inner transport adds
    one, a response that is not returned early starts again from zero, and
    neither a send that only stores nor an early-returned server error
    changes it. *)
Definition countFailure (n : nat) (r : Envelope * bool * TransportResult) : nat :=
  if storesOnly options (snd (fst r)) then n
  else
    match snd r with
    | Rejected _ => S n
    | Resolved result => if returnsEarly result then n else 0%nat
    end.

Definition failuresSinceSuccess (reqs : list (Envelope * bool * TransportResult)) : nat :=
  fold_left countFailure reqs 0%nat.

(** The retry delay after [n] failures in a row. *)
Definition backoffAfter (n : nat) : Z :=
  match n with
  | O => 0
  | S m => Z.min (START_DELAY * 2 ^ Z.of_nat m) MAX_DELAY
  end.

(** The engine's timer variable and the host's table agree: nothing is
    pending and [flushTimer] is unset, or exactly the timeout [flushTimer]
    holds is pending. *)
Definition TimerInv (st : Engine) : Prop :=
  0 < nextTimerId st /\
  match pending st with
  | [] => flushTimer st = None
  | [t] => flushTimer st = Some (timer_id t) /\
           0 < timer_id t < nextTimerId st /\
           createStore options = true
  | _ :: _ :: _ => False
  end.

End Notions.

(** The retry delay is 0 or within the backoff range. *)
Definition delayInRange (st : Engine) : Prop :=
  retryDelay st = 0 \/ START_DELAY <= retryDelay st <= MAX_DELAY.

(** ** Data for worked examples *)

(** Reads a string of decimal digits. *)
Fixpoint readDigits (s : string) (acc : Z) : option Z :=
  match s with
  | EmptyString => Some acc
  | String c rest =>
      let d := Z.of_nat (Ascii.nat_of_ascii c) - 48 in
      if (0 <=? d) && (d <=? 9) then readDigits rest (acc * 10 + d) else None
  end.

(** A stand-in for the collaborators in worked examples: an envelope is
    stored as its header string, and a retry-after header is read as whole
    seconds (anything else as one minute). *)
Definition sampleExternal : External := {|
  serializeEnvelope := fun env => Resolved (env_headers env);
  parseEnvelope := fun v => Resolved {| env_headers := v; env_items := [] |};
  parseRetryAfterHeader := fun h =>
    match readDigits h 0 with
    | Some s => s * 1000
    | None => 60000
    end;
|}.

Definition offlineOptions : OfflineTransportOptions := {|
  createStore := true; flushAtStartup := false; fullOffline := true;
  shouldStore := None; maxQueueSize := None;
|}.

Definition liveOptions : OfflineTransportOptions := {|
  createStore := true; flushAtStartup := false; fullOffline := false;
  shouldStore := None; maxQueueSize := None;
|}.

Definition startupOptions : OfflineTransportOptions := {|
  createStore := true; flushAtStartup := true; fullOffline := false;
  shouldStore := None; maxQueueSize := None;
|}.

Definition eventEnvelope : Envelope := {|
  env_headers := "e1";
  env_items := [ {| item_type := "event"; item_payload := "p" |} ];
|}.

Definition replayEnvelope : Envelope := {|
  env_headers := "r1";
  env_items := [ {| item_type := "replay_event"; item_payload := "p" |};
                 {| item_type := "replay_recording"; item_payload := "q" |} ];
|}.

(** An envelope without items, which the stand-in codec round-trips. *)
Definition plainEnvelope (h : string) : Envelope :=
  {| env_headers := h; env_items := [] |}.

(** The engine after two sends in full-offline mode. *)
Definition twoQueued : Engine :=
  run sampleExternal offlineOptions (makeOfflineTransport offlineOptions [])
      [EvSend eventEnvelope (Resolved None); EvSend eventEnvelope (Resolved None)].

(** ** Notions for draining the queue *)

(** The keys of an object store in strictly ascending order, as
    [getAllKeys] lists them. *)
Definition keysAscending (store : Queue.ObjectStore) : Prop :=
  StronglySorted Z.lt (Queue.getAllKeys store).



(** Inserts at the tail, one per value. *)
Definition tailInserts (values : list Queue.ItemValue) : list (Queue.ItemValue * bool) :=
  map (fun v => (v, false)) values.

(** [pop(store)] over and over, at most [fuel] times, for as long as it
    yields a value; the values in the order they come out. *)
Fixpoint popAll (fuel : nat) (store : Queue.ObjectStore) : list Queue.ItemValue :=
  match fuel with
  | O => []
  | S fuel' =>
      match Queue.pop store 0 with
      | (Resolved (Some v), store') => v :: popAll fuel' store'
      | _ => []
      end
  end.

(** The codec takes the envelope to a non-empty value that parses back to
    it. *)
Definition codecRoundTrips (ext : External) (env : Envelope) : Prop :=
  exists s, serializeEnvelope ext env = Resolved s /\
            truthy_string s = true /\
            parseEnvelope ext s = Resolved env.

(** The entries of the store are, in key order, values that parse to the
    given envelopes. *)
Definition holdsEnvelopes (ext : External) (store : Queue.ObjectStore)
           (envs : list Envelope) : Prop :=
  Forall2 (fun entry env => truthy_string (snd entry) = true /\
                            parseEnvelope ext (snd entry) = Resolved env)
          store envs.

Section Draining.

Variable ext : External.
Variable options : OfflineTransportOptions.

(** The host runs the callback of the timeout [flushTimer] holds. *)
Definition fireArmed (tr : TransportResult) (st : Engine) : Engine :=
  match flushTimer st with
  | Some id => fire ext options id tr st
  | None => st
  end.

(** The armed timeout fires time after time, the inner transport settling
    with the given results in turn. *)
Definition drainSteps (st : Engine) (trs : list TransportResult) : Engine :=
  fold_left (fun s tr => fireArmed tr s) trs st.


(** A head drain that has stopped short: the engine stores only, counts a
    drain as under way, and no timeout is pending. *)
Definition Stalled (st : Engine) : Prop :=
  createStore options = true /\
  fullOffline options = true /\
  pending st = [] /\
  flushTimer st = None /\
  0 < sizeToFlush st.

(** Outside full-offline mode no head drain is ever set up. *)
Definition NoHeadDrain (st : Engine) : Prop :=
  sizeToFlush st = 0 /\ flushedCnt st = 0 /\
  Forall (fun t => timer_head t = false) (pending st).

End Draining.

(** * Properties of the queue *)

Module QueueFacts.
Import Queue.

Lemma put_length (store : ObjectStore) (value : ItemValue) (key : Z) :
  (List.length (put store value key) <= S (List.length store))%nat.
Proof.
  induction store as [| [k v] rest IH]; simpl.
  - lia.
  - destruct (key <? k); [simpl; lia |].
    destruct (key =? k); simpl; lia.
Qed.

Lemma size_getAllKeys (store : ObjectStore) :
  size store = Z.of_nat (List.length store).
Proof. unfold size, getAllKeys. now rewrite length_map. Qed.

Lemma insert_resolves (store : ObjectStore) value maxQueueSize toStart :
  fst (insert store value maxQueueSize toStart) = Resolved tt.
Proof. unfold insert. now destruct (maxQueueSize <=? _). Qed.

Lemma insert_full (store : ObjectStore) value maxQueueSize toStart :
  maxQueueSize <= size store ->
  insert store value maxQueueSize toStart = (Resolved tt, store).
Proof.
  intros Hfull. unfold insert. fold (size store).
  destruct (Z.leb_spec maxQueueSize (size store)); [reflexivity | lia].
Qed.

Lemma insert_size (store : ObjectStore) value maxQueueSize toStart :
  size store <= maxQueueSize ->
  size (snd (insert store value maxQueueSize toStart)) <= maxQueueSize.
Proof.
  intros Hle. unfold insert. fold (size store).
  destruct (Z.leb_spec maxQueueSize (size store)) as [Hfull | Hroom]; simpl.
  - exact Hle.
  - rewrite size_getAllKeys in *.
    pose proof (put_length store value
                  (if toStart then 0 else max_key (getAllKeys store) + 1)).
    lia.
Qed.

Lemma insertAll_size maxQueueSize reqs : forall store,
  size store <= maxQueueSize ->
  size (insertAll maxQueueSize store reqs) <= maxQueueSize.
Proof.
  unfold insertAll.
  induction reqs as [| [value toStart] reqs IH]; intros store Hle; simpl.
  - exact Hle.
  - apply IH. now apply insert_size.
Qed.

Lemma max_key_nonneg (keys : list Z) : 0 <= max_key keys.
Proof. induction keys; simpl; lia. Qed.

Lemma put_keysNonNegative store value key :
  0 <= key -> keysNonNegative store -> keysNonNegative (put store value key).
Proof.
  unfold keysNonNegative, getAllKeys. intros Hkey.
  induction store as [| [k v] rest IH]; simpl; intros Hall.
  - now constructor.
  - inversion Hall as [| ? ? Hk Hrest]; subst.
    destruct (key <? k); [simpl; now repeat constructor |].
    destruct (key =? k); simpl; constructor; auto.
Qed.

Lemma delete_keysNonNegative store key :
  keysNonNegative store -> keysNonNegative (delete store key).
Proof.
  unfold keysNonNegative, getAllKeys.
  induction store as [| [k v] rest IH]; simpl; intros Hall; [constructor |].
  inversion Hall; subst.
  destruct (key =? k); simpl; [| constructor]; auto.
Qed.

Lemma apply_keysNonNegative maxQueueSize store op :
  keysNonNegative store -> keysNonNegative (apply maxQueueSize store op).
Proof.
  intros Hall. destruct op as [value toStart | offset |]; simpl.
  - unfold insert. destruct (maxQueueSize <=? _); simpl; [exact Hall |].
    apply put_keysNonNegative; [| exact Hall].
    destruct toStart; [lia |].
    pose proof (max_key_nonneg (getAllKeys store)). lia.
  - unfold pop. destruct (getAllKeys store); simpl; [exact Hall |].
    destruct (index _ offset); simpl; [| exact Hall].
    now apply delete_keysNonNegative.
  - constructor.
Qed.

Lemma reachable_keysNonNegative maxQueueSize store :
  Reachable maxQueueSize store -> keysNonNegative store.
Proof.
  intros [ops ->].
  assert (H : forall s, keysNonNegative s ->
                        keysNonNegative (fold_left (apply maxQueueSize) ops s)).
  { induction ops as [| op ops IH]; intros s Hs; simpl; [exact Hs |].
    apply IH. now apply apply_keysNonNegative. }
  apply H. constructor.
Qed.

Lemma put_below store value key :
  Forall (fun k => key < k) (getAllKeys store) ->
  put store value key = (key, value) :: store.
Proof.
  destruct store as [| [k v] rest]; simpl; intros Hall; [reflexivity |].
  inversion Hall; subst.
  destruct (Z.ltb_spec key k); [reflexivity | lia].
Qed.

(** C4: an insert into a queue that already holds [maxQueueSize] entries
    resolves and leaves the queue as it was; no sequence of inserts takes
    the queue beyond [maxQueueSize]. *)
Theorem insert_capacity (maxQueueSize : Z) :
  (forall store value toStart,
      maxQueueSize <= size store ->
      insert store value maxQueueSize toStart = (Resolved tt, store)) /\
  (forall store reqs,
      size store <= maxQueueSize ->
      size (insertAll maxQueueSize store reqs) <= maxQueueSize).
Proof.
  split.
  - intros. now apply insert_full.
  - intros. now apply insertAll_size.
Qed.

Lemma insert_capacity_witness :
  insert [(1, "a"); (2, "b")] "c" 2 false = (Resolved tt, [(1, "a"); (2, "b")]) /\
  size (insertAll 2 [] [("a", false); ("b", false); ("c", false)]) <= 2.
Proof.
  split.
  - apply (proj1 (insert_capacity 2)). vm_compute. discriminate.
  - apply (proj2 (insert_capacity 2)). vm_compute. discriminate.
Defined.

End QueueFacts.

(** * Properties of the engine *)

Section EngineFacts.

Variable ext : External.
Variable options : OfflineTransportOptions.

Local Abbreviation send := (send ext options).
Local Abbreviation sendAll := (sendAll ext options).
Local Abbreviation flushIn := (flushIn options).
Local Abbreviation flushWithBackOff := (flushWithBackOff options).
Local Abbreviation store_insert := (store_insert ext options).
Local Abbreviation store_pop := (store_pop ext).
Local Abbreviation shouldQueue := (shouldQueue options).
Local Abbreviation storesOnly := (storesOnly options).
Local Abbreviation nextDelay := (nextDelay ext).

(** *** What the helpers leave alone *)

Lemma store_insert_frame env toStart st :
  retryDelay (store_insert env toStart st) = retryDelay st /\
  flushTimer (store_insert env toStart st) = flushTimer st /\
  pending (store_insert env toStart st) = pending st /\
  nextTimerId (store_insert env toStart st) = nextTimerId st /\
  calls (store_insert env toStart st) = calls st.
Proof.
  unfold store_insert. destruct (serializeEnvelope ext env); simpl; auto.
Qed.

Lemma store_pop_frame offset st :
  retryDelay (snd (store_pop offset st)) = retryDelay st /\
  flushTimer (snd (store_pop offset st)) = flushTimer st /\
  pending (snd (store_pop offset st)) = pending st /\
  nextTimerId (snd (store_pop offset st)) = nextTimerId st /\
  calls (snd (store_pop offset st)) = calls st.
Proof.
  unfold store_pop.
  destruct (Queue.pop (idb st) offset) as [[d | e] idb']; simpl; auto.
  destruct d as [d |]; simpl; auto.
  destruct (truthy_string d); simpl; auto.
  destruct (parseEnvelope ext d); simpl; auto.
Qed.

Lemma flushIn_frame delay head st :
  retryDelay (flushIn delay head st) = retryDelay st /\
  idb (flushIn delay head st) = idb st /\
  calls (flushIn delay head st) = calls st.
Proof.
  unfold flushIn. destruct (createStore options); simpl; auto.
  destruct (flushTimer st) as [id |]; simpl; auto.
  destruct (truthy_number id); simpl; auto.
Qed.

Lemma flushWithBackOff_frame head st :
  retryDelay (flushWithBackOff head st) = retryDelay st /\
  idb (flushWithBackOff head st) = idb st /\
  calls (flushWithBackOff head st) = calls st.
Proof.
  unfold flushWithBackOff. destruct (flushTimerSet st); auto.
  apply flushIn_frame.
Qed.

Lemma shouldQueue_frame env e delay st :
  retryDelay (snd (shouldQueue env e delay st)) = retryDelay st /\
  idb (snd (shouldQueue env e delay st)) = idb st /\
  pending (snd (shouldQueue env e delay st)) = pending st /\
  flushTimer (snd (shouldQueue env e delay st)) = flushTimer st /\
  nextTimerId (snd (shouldQueue env e delay st)) = nextTimerId st.
Proof.
  unfold shouldQueue.
  destruct (envelopeContainsItemType env notQueuedTypes); simpl; auto.
  destruct (shouldStore options); simpl; auto.
Qed.

Lemma set_idb_same st : set_idb (idb st) st = st.
Proof. now destruct st. Qed.

(** *** The early return on a server error *)

Lemma nextDelay_returnsEarly result :
  nextDelay result = None <-> returnsEarly result = true.
Proof.
  unfold nextDelay, returnsEarly.
  destruct result as [r |]; [| split; discriminate].
  destruct (retryAfterHeader r); [split; discriminate |].
  destruct (400 <=? statusOrZero r); split; congruence.
Qed.

Lemma statusOrZero_some r code :
  statusCode r = Some code -> 400 <= code -> 400 <= statusOrZero r.
Proof.
  unfold statusOrZero, truthy_number. intros -> Hcode.
  destruct (Z.eqb_spec code 0); simpl; lia.
Qed.

Lemma retryAfterHeader_absent r :
  (forall h, headers r = Some h -> retry_after h = None) ->
  retryAfterHeader r = None.
Proof.
  unfold retryAfterHeader. intros Habs.
  destruct (headers r) as [h |]; [| reflexivity].
  now rewrite (Habs h eq_refl).
Qed.

(** *** Backoff *)

Lemma backOff_backoffAfter (n : nat) :
  backOff (backoffAfter n) = backoffAfter (S n).
Proof.
  unfold backOff, backoffAfter, START_DELAY, MAX_DELAY.
  destruct n as [| m].
  - reflexivity.
  - assert (Hpow : 0 < 2 ^ Z.of_nat m) by (apply Z.pow_pos_nonneg; lia).
    replace (Z.of_nat (S m)) with (Z.succ (Z.of_nat m)) by lia.
    rewrite Z.pow_succ_r by lia.
    lia.
Qed.

Lemma backoffAfter_range (n : nat) :
  (1 <= n)%nat -> START_DELAY <= backoffAfter n <= MAX_DELAY.
Proof.
  destruct n as [| m]; [lia |]. intros _.
  unfold backoffAfter, START_DELAY, MAX_DELAY.
  assert (Hpow : 0 < 2 ^ Z.of_nat m) by (apply Z.pow_pos_nonneg; lia).
  lia.
Qed.

Lemma send_retryDelay env head tr st (n : nat) :
  retryDelay st = backoffAfter n ->
  retryDelay (snd (send env head tr st))
  = backoffAfter (countFailure options n (env, head, tr)).
Proof.
  intros Hrd. unfold send, countFailure. simpl.
  destruct (storesOnly head).
  - simpl. now rewrite (proj1 (store_insert_frame env false st)).
  - destruct tr as [result | e].
    + destruct (nextDelay result) as [delay |] eqn:Hnext.
      * assert (Hearly : returnsEarly result = false).
        { destruct (returnsEarly result) eqn:H; [| reflexivity].
          apply nextDelay_returnsEarly in H. congruence. }
        rewrite Hearly.
        destruct head; simpl; now rewrite (proj1 (flushIn_frame _ _ _)).
      * apply nextDelay_returnsEarly in Hnext. rewrite Hnext. simpl. exact Hrd.
    + rewrite <- backOff_backoffAfter, <- Hrd.
      destruct (createStore options); [| reflexivity].
      match goal with
      | |- context [shouldQueue ?a ?b ?c ?d] =>
          pose proof (shouldQueue_frame a b c d) as Hq;
          destruct (shouldQueue a b c d) as [queue st1]
      end.
      simpl in Hq. destruct Hq as [Hq _].
      destruct queue; [| exact Hq].
      destruct head; simpl.
      * rewrite (proj1 (flushWithBackOff_frame _ _)). simpl.
        now rewrite (proj1 (store_insert_frame _ _ _)).
      * rewrite (proj1 (flushWithBackOff_frame _ _)).
        now rewrite (proj1 (store_insert_frame _ _ _)).
Qed.

Lemma sendAll_retryDelay reqs : forall st (n : nat),
  retryDelay st = backoffAfter n ->
  retryDelay (sendAll st reqs) = backoffAfter (fold_left (countFailure options) reqs n).
Proof.
  unfold sendAll.
  induction reqs as [| [[env head] tr] reqs IH]; intros st n Hrd; simpl.
  - exact Hrd.
  - apply IH. now apply send_retryDelay.
Qed.

(** C3: from a state with no backoff, after any sequence of sends the retry
    delay is [min(START_DELAY * 2^(N-1), MAX_DELAY)], within
    [[START_DELAY, MAX_DELAY]], where [N >= 1] is the number of live-send
    failures in a row, and it is 0 when the last live send went through; one
    more failure makes the run one longer, and a live send that resolves with
    nothing or with a status below 400 ends the run with a delay of 0. *)
Theorem retryDelay_backoff (st : Engine) (reqs : list (Envelope * bool * TransportResult)) :
  retryDelay st = 0 ->
  let N := failuresSinceSuccess options reqs in
  (N = 0%nat -> retryDelay (sendAll st reqs) = 0) /\
  ((1 <= N)%nat ->
   retryDelay (sendAll st reqs) = Z.min (START_DELAY * 2 ^ (Z.of_nat N - 1)) MAX_DELAY /\
   START_DELAY <= retryDelay (sendAll st reqs) <= MAX_DELAY) /\
  (forall env head e,
      storesOnly head = false ->
      failuresSinceSuccess options (reqs ++ [(env, head, Rejected e)]) = S N) /\
  (forall env head result,
      storesOnly head = false ->
      match result with Some r => statusOrZero r < 400 | None => True end ->
      failuresSinceSuccess options (reqs ++ [(env, head, Resolved result)]) = 0%nat /\
      retryDelay (snd (send env head (Resolved result) (sendAll st reqs))) = 0).
Proof.
  intros Hrd N.
  assert (Hall : retryDelay (sendAll st reqs) = backoffAfter N).
  { apply (sendAll_retryDelay reqs st 0%nat). exact Hrd. }
  assert (Hok : forall result,
             match result with Some r => statusOrZero r < 400 | None => True end ->
             returnsEarly result = false).
  { intros [r |] Hlt; simpl; [| reflexivity].
    destruct (retryAfterHeader r); [reflexivity |].
    destruct (Z.leb_spec 400 (statusOrZero r)); [lia | reflexivity]. }
  split; [| split; [| split]].
  - intros HN. rewrite Hall, HN. reflexivity.
  - intros HN. rewrite Hall. split; [| now apply backoffAfter_range].
    destruct N as [| m]; [lia |]. simpl backoffAfter.
    replace (Z.of_nat (S m) - 1) with (Z.of_nat m) by lia. reflexivity.
  - intros env head e Hlive. unfold failuresSinceSuccess.
    rewrite fold_left_app. simpl. unfold countFailure at 1. simpl.
    now rewrite Hlive.
  - intros env head result Hlive Hstatus. split.
    + unfold failuresSinceSuccess.
      rewrite fold_left_app. simpl. unfold countFailure at 1. simpl.
      now rewrite Hlive, (Hok result Hstatus).
    + rewrite (send_retryDelay env head (Resolved result) _ N Hall).
      unfold countFailure. simpl. now rewrite Hlive, (Hok result Hstatus).
Qed.

(** C5: when the inner transport resolves with a response whose status is
    400 or more and that has no retry-after header, [send] returns that
    response and, but for having called the inner transport, leaves the
    engine as it was: no timer is armed, the queue and the retry delay are
    untouched. *)
Theorem server_error_returned (st : Engine) (env : Envelope) (head : bool)
        (r : Response) (code : Z) :
  storesOnly head = false ->
  statusCode r = Some code ->
  400 <= code ->
  (forall h, headers r = Some h -> retry_after h = None) ->
  send env head (Resolved (Some r)) st
  = (Resolved (Some r), false, record_call (CallTransportSend env) st) /\
  pending (snd (send env head (Resolved (Some r)) st)) = pending st /\
  flushTimer (snd (send env head (Resolved (Some r)) st)) = flushTimer st /\
  idb (snd (send env head (Resolved (Some r)) st)) = idb st /\
  retryDelay (snd (send env head (Resolved (Some r)) st)) = retryDelay st.
Proof.
  intros Hlive Hcode Hge Habs.
  assert (Hsend : send env head (Resolved (Some r)) st
                  = (Resolved (Some r), false, record_call (CallTransportSend env) st)).
  { unfold send. rewrite Hlive.
    unfold nextDelay. rewrite (retryAfterHeader_absent r Habs).
    pose proof (statusOrZero_some r code Hcode Hge) as Hstatus.
    destruct (Z.leb_spec 400 (statusOrZero r)); [reflexivity | lia]. }
  rewrite Hsend. simpl. auto.
Qed.

(** C6: when a live send of an envelope with a replay_event,
    replay_recording or client_report item fails, the error is raised to the
    caller again, [shouldStore] is not asked, and the queue is as it was. *)
Theorem replay_never_queued (st : Engine) (env : Envelope) (head : bool) (e : Error) :
  storesOnly head = false ->
  (exists item, In item (env_items env) /\ In (item_type item) notQueuedTypes) ->
  fst (fst (send env head (Rejected e) st)) = Rejected e /\
  idb (snd (send env head (Rejected e) st)) = idb st /\
  Queue.size (idb (snd (send env head (Rejected e) st))) = Queue.size (idb st) /\
  calls (snd (send env head (Rejected e) st)) = CallTransportSend env :: calls st.
Proof.
  intros Hlive [item [Hitem Hkind]].
  assert (Hcontains : envelopeContainsItemType env notQueuedTypes = true).
  { unfold envelopeContainsItemType. apply existsb_exists.
    exists item. split; [exact Hitem |].
    apply existsb_exists. exists (item_type item). split; [exact Hkind |].
    apply String.eqb_refl. }
  unfold send. rewrite Hlive.
  unfold shouldQueue. rewrite Hcontains.
  destruct (createStore options); simpl; auto.
Qed.

(** C9: with a store and [fullOffline], a [send] that is not a head-drain
    step resolves with an empty response whatever the inner transport would
    have done and whatever [shouldStore] is; neither is called, only the
    queue can change, and with the queue at capacity nothing changes at
    all. *)
Theorem fullOffline_send_stores (st : Engine) (env : Envelope) (tr : TransportResult) :
  createStore options = true ->
  fullOffline options = true ->
  send env false tr st = (Resolved (Some emptyResponse), false, store_insert env false st) /\
  calls (snd (send env false tr st)) = calls st /\
  pending (snd (send env false tr st)) = pending st /\
  retryDelay (snd (send env false tr st)) = retryDelay st /\
  (queueCapacity options <= Queue.size (idb st) ->
   send env false tr st = (Resolved (Some emptyResponse), false, st)).
Proof.
  intros Hstore Hfull.
  assert (Hsend : send env false tr st
                  = (Resolved (Some emptyResponse), false, store_insert env false st)).
  { unfold send, storesOnly. now rewrite Hstore, Hfull. }
  rewrite Hsend. simpl.
  destruct (store_insert_frame env false st) as [Hrd [_ [Hpend [_ Hcalls]]]].
  repeat split; auto.
  intros Hfullq. do 2 f_equal.
  unfold store_insert.
  destruct (serializeEnvelope ext env) as [serialized |]; [| reflexivity].
  rewrite (QueueFacts.insert_full _ _ _ _ Hfullq). simpl. apply set_idb_same.
Qed.

(** *** Arming the timer *)

Lemma flushIn_arms delay head st :
  createStore options = true ->
  flushTimer (flushIn delay head st) = Some (nextTimerId st) /\
  armedTimer (flushIn delay head st)
  = Some {| timer_id := nextTimerId st; timer_delay := delay; timer_head := head |} /\
  In {| timer_id := nextTimerId st; timer_delay := delay; timer_head := head |}
     (pending (flushIn delay head st)).
Proof.
  intros Hstore. unfold flushIn, armedTimer. rewrite Hstore. simpl.
  destruct (flushTimer st) as [id |]; [destruct (truthy_number id) |];
    simpl; rewrite Z.eqb_refl; auto.
Qed.

(** C8: when the inner transport resolves with a response that has a
    retry-after header, [send] hands the response back and schedules the
    next drain by [flushIn] with the delay [parseRetryAfterHeader] reads from
    the header, whatever the status of the response; with a store, that is
    the delay of the timeout then armed. *)
Theorem retry_after_sets_delay (st : Engine) (env : Envelope) (head : bool)
        (r : Response) (h : ResponseHeaders) (v : string) :
  storesOnly head = false ->
  headers r = Some h ->
  retry_after h = Some v ->
  v <> "" ->
  send env head (Resolved (Some r)) st
  = (Resolved (Some r), head && createStore options,
     flushIn (parseRetryAfterHeader ext v) head
             (set_retryDelay 0 (record_call (CallTransportSend env) st))) /\
  (createStore options = true ->
   armedTimer (snd (send env head (Resolved (Some r)) st))
   = Some {| timer_id := nextTimerId st;
             timer_delay := parseRetryAfterHeader ext v;
             timer_head := head |} /\
   In {| timer_id := nextTimerId st;
         timer_delay := parseRetryAfterHeader ext v;
         timer_head := head |}
      (pending (snd (send env head (Resolved (Some r)) st)))).
Proof.
  intros Hlive Hheaders Hretry Hv.
  assert (Hheader : retryAfterHeader r = Some v).
  { unfold retryAfterHeader, truthy_string. rewrite Hheaders, Hretry.
    destruct (String.eqb_spec v ""); [contradiction | reflexivity]. }
  assert (Hsend : send env head (Resolved (Some r)) st
                  = (Resolved (Some r), head && createStore options,
                     flushIn (parseRetryAfterHeader ext v) head
                       (set_retryDelay 0 (record_call (CallTransportSend env) st)))).
  { unfold send. rewrite Hlive. unfold nextDelay. rewrite Hheader.
    now destruct head. }
  split; [exact Hsend |].
  intros Hstore. rewrite Hsend. simpl.
  match goal with
  | |- context [flushIn ?d ?b ?s] =>
      destruct (flushIn_arms d b s Hstore) as [_ [Harmed Hin]]
  end.
  simpl in Harmed, Hin. auto.
Qed.

(** C10 (amended): when the inner transport resolves with nothing, or with a
    response that has no statusCode, the status counts as 0, [send] hands the
    result back, the retry delay is 0 and the next drain is scheduled by
    [flushIn]: at [MIN_DELAY], or, when the response has a retry-after
    header, at the delay read from that header. *)
Theorem missing_status_is_success (st : Engine) (env : Envelope) (head : bool)
        (result : option Response) :
  storesOnly head = false ->
  match result with Some r => statusCode r = None | None => True end ->
  let delay :=
    match result with
    | Some r =>
        match retryAfterHeader r with
        | Some v => parseRetryAfterHeader ext v
        | None => MIN_DELAY
        end
    | None => MIN_DELAY
    end in
  match result with Some r => statusOrZero r = 0 | None => True end /\
  send env head (Resolved result) st
  = (Resolved result, head && createStore options,
     flushIn delay head (set_retryDelay 0 (record_call (CallTransportSend env) st))) /\
  retryDelay (snd (send env head (Resolved result) st)) = 0 /\
  (createStore options = true ->
   armedTimer (snd (send env head (Resolved result) st))
   = Some {| timer_id := nextTimerId st; timer_delay := delay; timer_head := head |}).
Proof.
  intros Hlive Hstatus delay.
  assert (Hzero : match result with Some r => statusOrZero r = 0 | None => True end).
  { destruct result as [r |]; [| exact I]. unfold statusOrZero. now rewrite Hstatus. }
  assert (Hnext : nextDelay result = Some delay).
  { unfold nextDelay, delay. destruct result as [r |]; [| reflexivity].
    destruct (retryAfterHeader r); [reflexivity |]. now rewrite Hzero. }
  assert (Hsend : send env head (Resolved result) st
                  = (Resolved result, head && createStore options,
                     flushIn delay head
                       (set_retryDelay 0 (record_call (CallTransportSend env) st)))).
  { unfold send. rewrite Hlive, Hnext. now destruct head. }
  split; [exact Hzero |]. split; [exact Hsend |].
  rewrite Hsend. simpl.
  match goal with
  | |- context [flushIn ?d ?b ?s] =>
      destruct (flushIn_frame d b s) as [Hrd _];
      pose proof (flushIn_arms d b s) as Harms
  end.
  split; [exact Hrd |].
  intros Hstore. destruct (Harms Hstore) as [_ [Harmed _]]. exact Harmed.
Qed.

(** *** One timer at a time *)

Local Abbreviation TimerInv := (TimerInv options).
Local Abbreviation flush := (flush options).
Local Abbreviation fire := (fire ext options).
Local Abbreviation timerCallback := (timerCallback ext options).

Lemma TimerInv_frame st st' :
  nextTimerId st' = nextTimerId st ->
  pending st' = pending st ->
  flushTimer st' = flushTimer st ->
  TimerInv st -> TimerInv st'.
Proof.
  unfold TimerInv. intros -> -> ->. auto.
Qed.

Lemma TimerInv_flushTimerSet st :
  TimerInv st -> flushTimerSet st = negb (match pending st with [] => true | _ => false end).
Proof.
  unfold TimerInv, flushTimerSet, truthy_number. intros [Hnext Hinv].
  destruct (pending st) as [| t [| t' rest]]; [| | contradiction].
  - now rewrite Hinv.
  - destruct Hinv as [-> [Hid _]]. simpl.
    destruct (Z.eqb_spec (timer_id t) 0); [lia | reflexivity].
Qed.

Lemma flushIn_replaces delay head st :
  TimerInv st ->
  createStore options = true ->
  pending (flushIn delay head st)
  = [{| timer_id := nextTimerId st; timer_delay := delay; timer_head := head |}] /\
  flushTimer (flushIn delay head st) = Some (nextTimerId st) /\
  nextTimerId (flushIn delay head st) = nextTimerId st + 1.
Proof.
  unfold TimerInv, flushIn, truthy_number.
  intros [Hnext Hinv] Hstore. rewrite Hstore. simpl.
  destruct (pending st) as [| t [| t' rest]] eqn:Hpending; [| | contradiction].
  - rewrite Hinv. simpl. now rewrite Hpending.
  - destruct Hinv as [-> [Hid _]].
    destruct (Z.eqb_spec (timer_id t) 0); [lia |]. simpl.
    rewrite Hpending. simpl. now rewrite Z.eqb_refl.
Qed.

Lemma flushIn_TimerInv delay head st :
  TimerInv st -> TimerInv (flushIn delay head st).
Proof.
  intros Hinv. destruct (createStore options) eqn:Hstore.
  - destruct (flushIn_replaces delay head st Hinv Hstore) as [Hp [Hf Hn]].
    destruct Hinv as [Hnext _].
    unfold TimerInv. rewrite Hp, Hf, Hn. simpl.
    repeat split; auto; lia.
  - unfold flushIn. now rewrite Hstore.
Qed.

Lemma flushWithBackOff_TimerInv head st :
  TimerInv st -> TimerInv (flushWithBackOff head st).
Proof.
  intros Hinv. unfold flushWithBackOff.
  destruct (flushTimerSet st); [exact Hinv | now apply flushIn_TimerInv].
Qed.

Lemma store_insert_TimerInv env toStart st :
  TimerInv st -> TimerInv (store_insert env toStart st).
Proof.
  destruct (store_insert_frame env toStart st) as [_ [Hf [Hp [Hn _]]]].
  now apply TimerInv_frame.
Qed.

Lemma store_pop_TimerInv offset st :
  TimerInv st -> TimerInv (snd (store_pop offset st)).
Proof.
  destruct (store_pop_frame offset st) as [_ [Hf [Hp [Hn _]]]].
  now apply TimerInv_frame.
Qed.

Lemma shouldQueue_TimerInv env e delay st :
  TimerInv st -> TimerInv (snd (shouldQueue env e delay st)).
Proof.
  destruct (shouldQueue_frame env e delay st) as [_ [_ [Hp [Hf Hn]]]].
  now apply TimerInv_frame.
Qed.

Lemma send_TimerInv env head tr st :
  TimerInv st -> TimerInv (snd (send env head tr st)).
Proof.
  intros Hinv. unfold send.
  destruct (storesOnly head); simpl; [now apply store_insert_TimerInv |].
  destruct tr as [result | e].
  - destruct (nextDelay result) as [delay |]; [| exact Hinv].
    destruct head; simpl; now apply flushIn_TimerInv.
  - destruct (createStore options); [| exact Hinv].
    match goal with
    | |- context [shouldQueue ?a ?b ?c ?d] =>
        pose proof (shouldQueue_TimerInv a b c d) as Hq;
        destruct (shouldQueue a b c d) as [queue st1]
    end.
    simpl in Hq. specialize (Hq Hinv).
    destruct queue; [| exact Hq].
    destruct head; simpl; apply flushWithBackOff_TimerInv.
    + apply (TimerInv_frame (store_insert env true st1)); auto.
      now apply store_insert_TimerInv.
    + now apply store_insert_TimerInv.
Qed.

Lemma flushEnd_TimerInv head st :
  TimerInv st -> TimerInv (flushEnd head st).
Proof.
  unfold flushEnd. intros Hinv.
  destruct (head && (flushedCnt st =? sizeToFlush st)); [| exact Hinv].
  now apply (TimerInv_frame st).
Qed.

Lemma timerCallback_TimerInv head tr st :
  0 < nextTimerId st -> pending st = [] -> TimerInv (timerCallback head tr st).
Proof.
  intros Hnext Hpending.
  assert (Hinv : TimerInv (set_flushTimer None st)).
  { unfold TimerInv. simpl. now rewrite Hpending. }
  unfold timerCallback.
  set (st0 := set_flushTimer None st) in *.
  set (offset := if head then 0 else sizeToFlush st0 - flushedCnt st0).
  set (canPop := if head then flushedCnt st0 <? sizeToFlush st0 else true).
  assert (Hpop : TimerInv (snd (if canPop then store_pop offset st0 else (None, st0)))).
  { destruct canPop; [now apply store_pop_TimerInv | exact Hinv]. }
  destruct (if canPop then store_pop offset st0 else (None, st0)) as [found st1].
  simpl in Hpop.
  destruct found as [env |]; [| now apply flushEnd_TimerInv].
  set (st2 := if head then set_flushedCnt (flushedCnt st1 + 1) st1 else st1).
  assert (Hinv2 : TimerInv st2).
  { subst st2. destruct head; [| exact Hpop]. now apply (TimerInv_frame st1). }
  pose proof (send_TimerInv env head tr st2 Hinv2) as Hsend.
  destruct (send env head tr st2) as [[res parks] st3]. simpl in Hsend.
  destruct parks; [exact Hsend | now apply flushEnd_TimerInv].
Qed.

Lemma fire_TimerInv id tr st :
  TimerInv st -> TimerInv (fire id tr st).
Proof.
  intros Hinv. unfold fire.
  destruct (find (fun t => timer_id t =? id) (pending st)) as [t |] eqn:Hfind;
    [| exact Hinv].
  destruct Hinv as [Hnext Hinv].
  apply timerCallback_TimerInv; [exact Hnext |].
  simpl. destruct (pending st) as [| t0 [| t' rest]]; [discriminate | | contradiction].
  simpl in Hfind. simpl.
  destruct (timer_id t0 =? id); [reflexivity | discriminate].
Qed.

Lemma flush_TimerInv t inner st :
  TimerInv st -> TimerInv (snd (flush t inner st)).
Proof.
  intros Hinv. unfold flush.
  destruct (fullOffline options); [| exact Hinv].
  destruct (flushGuard t); simpl.
  - destruct (createStore options); [| exact Hinv]. exact Hinv.
  - destruct (0 <? sizeToFlush st); [exact Hinv |].
    cbv zeta. simpl.
    destruct (0 <? (if createStore options then store_size st else 0)); simpl;
      [apply flushWithBackOff_TimerInv |]; exact Hinv.
Qed.

Lemma makeOfflineTransport_TimerInv persisted :
  TimerInv (makeOfflineTransport options persisted).
Proof.
  unfold makeOfflineTransport.
  match goal with
  | |- context [if _ then flushWithBackOff false ?s else _] =>
      assert (Hinit : TimerInv s) by (unfold TimerInv; simpl; split; [lia | reflexivity])
  end.
  destruct (flushAtStartup options); [now apply flushWithBackOff_TimerInv | exact Hinit].
Qed.

Lemma reachable_TimerInv st :
  Reachable ext options st -> TimerInv st.
Proof.
  induction 1 as [persisted | st ev Hreach IH].
  - apply makeOfflineTransport_TimerInv.
  - destruct ev as [env tr | t inner | id tr]; simpl.
    + now apply send_TimerInv.
    + now apply flush_TimerInv.
    + now apply fire_TimerInv.
Qed.

(** C7: in every state the engine can reach at most one timeout is pending,
    and it is the one [flushTimer] holds.  With a store, [flushIn] always
    leaves exactly the timeout it installs pending, under a fresh handle
    that [flushTimer] then holds: a timeout that was pending before is
    cancelled.  While a timeout is pending [flushWithBackOff] changes
    nothing; with none pending it arms one at the current retry delay. *)
Theorem one_flushTimer (st : Engine) :
  Reachable ext options st ->
  (List.length (pending st) <= 1)%nat /\
  (createStore options = true ->
   forall delay head,
     pending (flushIn delay head st)
     = [{| timer_id := nextTimerId st; timer_delay := delay; timer_head := head |}] /\
     flushTimer (flushIn delay head st) = Some (nextTimerId st) /\
     (forall t, In t (pending st) -> ~ In t (pending (flushIn delay head st)))) /\
  (forall t, In t (pending st) ->
     createStore options = true /\
     flushTimer st = Some (timer_id t) /\
     (forall delay head,
         pending (flushIn delay head st)
         = [{| timer_id := nextTimerId st; timer_delay := delay; timer_head := head |}] /\
         flushTimer (flushIn delay head st) = Some (nextTimerId st) /\
         ~ In t (pending (flushIn delay head st))) /\
     (forall head, flushWithBackOff head st = st)) /\
  (pending st = [] ->
   flushTimer st = None /\
   (createStore options = true ->
    forall head,
      pending (flushWithBackOff head st)
      = [{| timer_id := nextTimerId st; timer_delay := retryDelay st;
            timer_head := head |}] /\
      flushTimer (flushWithBackOff head st) = Some (nextTimerId st))).
Proof.
  intros Hreach. pose proof (reachable_TimerInv st Hreach) as Hinv.
  pose proof (TimerInv_flushTimerSet st Hinv) as Hset.
  assert (Hfresh : forall t, In t (pending st) -> timer_id t <> nextTimerId st).
  { destruct Hinv as [_ Hshape]. intros t Hin.
    destruct (pending st) as [| t0 [| t' rest]]; [contradiction | | contradiction].
    destruct Hin as [<- | []]. destruct Hshape as [_ [Hid _]]. lia. }
  assert (Hin_store : forall t, In t (pending st) ->
                                createStore options = true /\
                                flushTimer st = Some (timer_id t)).
  { destruct Hinv as [_ Hshape]. intros t Hin.
    destruct (pending st) as [| t0 [| t' rest]]; [contradiction | | contradiction].
    destruct Hin as [<- | []]. tauto. }
  assert (Hreplace : createStore options = true ->
            forall delay head,
              pending (flushIn delay head st)
              = [{| timer_id := nextTimerId st; timer_delay := delay;
                    timer_head := head |}] /\
              flushTimer (flushIn delay head st) = Some (nextTimerId st) /\
              (forall t, In t (pending st) -> ~ In t (pending (flushIn delay head st)))).
  { intros Hstore delay head.
    destruct (flushIn_replaces delay head st Hinv Hstore) as [Hp [Hf _]].
    rewrite Hp, Hf. repeat split.
    intros t Hin [Heq | []]. apply (Hfresh t Hin). now rewrite <- Heq. }
  split.
  { destruct Hinv as [_ Hshape].
    destruct (pending st) as [| t0 [| t' rest]]; simpl; [lia | lia | contradiction]. }
  split; [exact Hreplace |]. split.
  - intros t Hin. destruct (Hin_store t Hin) as [Hstore Hflush].
    split; [exact Hstore |]. split; [exact Hflush |]. split.
    + intros delay head. destruct (Hreplace Hstore delay head) as [Hp [Hf Hgone]].
      repeat split; auto.
    + intros head. unfold flushWithBackOff. rewrite Hset.
      destruct (pending st); [contradiction | reflexivity].
  - intros Hnone. split.
    + destruct Hinv as [_ Hshape]. now rewrite Hnone in Hshape.
    + intros Hstore head. unfold flushWithBackOff. rewrite Hset, Hnone. simpl.
      destruct (flushIn_replaces (retryDelay st) head st Hinv Hstore) as [Hp [Hf _]].
      now rewrite Hp, Hf.
Qed.

(** *** The end of a drain and the range of the retry delay *)

(** The callbacks that waited for a nested timer repeat the test the
    innermost one has made; repeating it changes nothing. *)
Lemma flushEnd_idempotent head st :
  flushEnd head (flushEnd head st) = flushEnd head st.
Proof.
  unfold flushEnd. destruct head; simpl; [| reflexivity].
  destruct (Z.eqb_spec (flushedCnt st) (sizeToFlush st)) as [Heq | Hne]; simpl.
  - reflexivity.
  - destruct (Z.eqb_spec (flushedCnt st) (sizeToFlush st)); [contradiction | reflexivity].
Qed.

Lemma backOff_range (delay : Z) : START_DELAY <= backOff delay <= MAX_DELAY.
Proof. unfold backOff, START_DELAY, MAX_DELAY. lia. Qed.

Lemma send_delayInRange env head tr st :
  delayInRange st -> delayInRange (snd (send env head tr st)).
Proof.
  unfold delayInRange. intros Hrange. unfold send.
  destruct (storesOnly head); simpl.
  - now rewrite (proj1 (store_insert_frame env false st)).
  - destruct tr as [result | e].
    + destruct (nextDelay result) as [delay |]; [| exact Hrange].
      left. destruct head; simpl; now rewrite (proj1 (flushIn_frame _ _ _)).
    + right. pose proof (backOff_range (retryDelay st)) as Hb.
      destruct (createStore options); [| exact Hb].
      match goal with
      | |- context [shouldQueue ?a ?b ?c ?d] =>
          pose proof (shouldQueue_frame a b c d) as Hq;
          destruct (shouldQueue a b c d) as [queue st1]
      end.
      simpl in Hq. destruct Hq as [Hq _].
      destruct queue; simpl; [| now rewrite Hq].
      destruct head; simpl; rewrite (proj1 (flushWithBackOff_frame _ _)); simpl;
        rewrite (proj1 (store_insert_frame _ _ _)); now rewrite Hq.
Qed.

Lemma fire_delayInRange id tr st :
  delayInRange st -> delayInRange (fire id tr st).
Proof.
  intros Hrange. unfold fire.
  destruct (find (fun t => timer_id t =? id) (pending st)) as [t |]; [| exact Hrange].
  unfold timerCallback.
  set (st0 := set_flushTimer None (clearTimeout id st)).
  assert (H0 : delayInRange st0) by exact Hrange.
  set (head := timer_head t).
  set (offset := if head then 0 else sizeToFlush st0 - flushedCnt st0).
  set (canPop := if head then flushedCnt st0 <? sizeToFlush st0 else true).
  assert (Hpop : delayInRange (snd (if canPop then store_pop offset st0 else (None, st0)))).
  { destruct canPop; [| exact H0].
    unfold delayInRange. now rewrite (proj1 (store_pop_frame offset st0)). }
  destruct (if canPop then store_pop offset st0 else (None, st0)) as [found st1].
  simpl in Hpop.
  assert (Hend : forall s, delayInRange s -> delayInRange (flushEnd head s)).
  { intros s Hs. unfold flushEnd.
    destruct (head && (flushedCnt s =? sizeToFlush s)); exact Hs. }
  destruct found as [env |]; [| now apply Hend].
  set (st2 := if head then set_flushedCnt (flushedCnt st1 + 1) st1 else st1).
  assert (H2 : delayInRange st2) by (subst st2; destruct head; exact Hpop).
  pose proof (send_delayInRange env head tr st2 H2) as Hsend.
  destruct (send env head tr st2) as [[res parks] st3]. simpl in Hsend.
  destruct parks; [exact Hsend | now apply Hend].
Qed.

Lemma flush_delayInRange t inner st :
  delayInRange st -> delayInRange (snd (flush t inner st)).
Proof.
  intros Hrange. unfold flush.
  destruct (fullOffline options); [| exact Hrange].
  destruct (flushGuard t); simpl.
  - destruct (createStore options); exact Hrange.
  - destruct (0 <? sizeToFlush st); [exact Hrange |].
    cbv zeta. simpl.
    destruct (0 <? (if createStore options then store_size st else 0)); simpl;
      [| exact Hrange].
    unfold delayInRange. rewrite (proj1 (flushWithBackOff_frame _ _)). exact Hrange.
Qed.

(** In every state the engine can reach, the retry delay is 0 or lies in
    [[START_DELAY, MAX_DELAY]]. *)
Lemma reachable_delayInRange st :
  Reachable ext options st -> delayInRange st.
Proof.
  induction 1 as [persisted | st ev Hreach IH].
  - unfold makeOfflineTransport.
    destruct (flushAtStartup options); [| now left].
    unfold delayInRange. rewrite (proj1 (flushWithBackOff_frame _ _)). now left.
  - destruct ev as [env tr | t inner | id tr]; simpl.
    + now apply send_delayInRange.
    + now apply flush_delayInRange.
    + now apply fire_delayInRange.
Qed.

(** *** [flush] in full-offline mode *)

Lemma flushGuard_spec (t : option Z) :
  flushGuard t = true <-> exists n, t = Some n /\ n <> 0.
Proof.
  unfold flushGuard, truthy_number. destruct t as [n |]; simpl.
  - destruct (Z.eqb_spec n 0); simpl; split.
    + discriminate.
    + intros [m [Heq Hne]]. inversion Heq; subst. contradiction.
    + intros _. now exists n.
    + reflexivity.
  - split; [discriminate | intros [n [Heq _]]; discriminate].
Qed.

(** A negative timeout purges the queue. *)
Lemma flush_negative_purges (n : Z) (inner : bool) (st : Engine) :
  fullOffline options = true ->
  createStore options = true ->
  n < 0 ->
  flush (Some n) inner st = (true, set_idb [] st).
Proof.
  intros Hfull Hstore Hneg. unfold flush. rewrite Hfull, Hstore.
  assert (Hguard : flushGuard (Some n) = true).
  { apply flushGuard_spec. exists n. split; [reflexivity | lia]. }
  now rewrite Hguard.
Qed.

(** So does every other timeout that is not zero. *)
Lemma flush_nonzero_purges (n : Z) (inner : bool) (st : Engine) :
  fullOffline options = true ->
  createStore options = true ->
  n <> 0 ->
  flush (Some n) inner st = (true, set_idb [] st).
Proof.
  intros Hfull Hstore Hne. unfold flush. rewrite Hfull, Hstore.
  assert (Hguard : flushGuard (Some n) = true).
  { apply flushGuard_spec. now exists n. }
  now rewrite Hguard.
Qed.

(** Without a timeout, or with timeout 0, a head drain in progress makes
    [flush] answer false and change nothing. *)
Lemma flush_in_progress (t : option Z) (inner : bool) (st : Engine) :
  fullOffline options = true ->
  t = None \/ t = Some 0 ->
  0 < sizeToFlush st ->
  flush t inner st = (false, st).
Proof.
  intros Hfull Ht Hsize. unfold flush. rewrite Hfull.
  assert (Hguard : flushGuard t = false) by (destruct Ht as [-> | ->]; reflexivity).
  rewrite Hguard.
  destruct (Z.ltb_spec 0 (sizeToFlush st)); [reflexivity | lia].
Qed.

(** Without a timeout, or with timeout 0, and no head drain in progress,
    [flush] takes the size of the queue as [sizeToFlush], leaves the queue
    as it is, and, when the queue is not empty and no timer is pending, arms
    a head drain at the current retry delay; true is the value its promise
    settles with. *)
Lemma flush_starts_drain (t : option Z) (inner : bool) (st : Engine) :
  fullOffline options = true ->
  createStore options = true ->
  t = None \/ t = Some 0 ->
  sizeToFlush st <= 0 ->
  fst (flush t inner st) = true /\
  sizeToFlush (snd (flush t inner st)) = Queue.size (idb st) /\
  idb (snd (flush t inner st)) = idb st /\
  (0 < Queue.size (idb st) ->
   flushTimerSet st = false ->
   armedTimer (snd (flush t inner st))
   = Some {| timer_id := nextTimerId st; timer_delay := retryDelay st;
             timer_head := true |}) /\
  (Queue.size (idb st) = 0 -> snd (flush t inner st) = set_sizeToFlush 0 st).
Proof.
  intros Hfull Hstore Ht Hsize. unfold flush. rewrite Hfull, Hstore.
  assert (Hguard : flushGuard t = false) by (destruct Ht as [-> | ->]; reflexivity).
  rewrite Hguard.
  destruct (Z.ltb_spec 0 (sizeToFlush st)); [lia |].
  cbv zeta. simpl. unfold store_size.
  destruct (Z.ltb_spec 0 (Queue.size (idb st))) as [Hpos | Hempty]; simpl.
  - split; [reflexivity |].
    unfold flushWithBackOff, flushTimerSet. simpl.
    fold (flushTimerSet st).
    destruct (flushTimerSet st) eqn:Hset; simpl.
    + repeat split; auto; intros; try discriminate; lia.
    + match goal with
      | |- context [flushIn ?d ?b ?s] =>
          destruct (flushIn_arms d b s Hstore) as [_ [Harmed _]];
          destruct (flushIn_frame d b s) as [_ [Hidb _]];
          assert (Hsz : sizeToFlush (flushIn d b s) = sizeToFlush s)
      end.
      { unfold flushIn. rewrite Hstore. simpl.
        destruct (flushTimer st) as [id |]; [destruct (truthy_number id) |];
          reflexivity. }
      simpl in Harmed, Hidb, Hsz.
      repeat split; auto. intros; lia.
  - repeat split; auto.
    + intros; lia.
    + intros Hz. now rewrite Hz.
Qed.

End EngineFacts.

(** * Worked instances *)

Lemma retryDelay_backoff_witness :
  retryDelay
    (sendAll sampleExternal liveOptions
       (makeOfflineTransport liveOptions [])
       [(eventEnvelope, false, Rejected "offline");
        (eventEnvelope, false, Rejected "offline");
        (eventEnvelope, false, Rejected "offline")])
  = Z.min (START_DELAY * 2 ^ (Z.of_nat 3 - 1)) MAX_DELAY.
Proof.
  apply (retryDelay_backoff sampleExternal liveOptions
           (makeOfflineTransport liveOptions [])
           [(eventEnvelope, false, Rejected "offline");
            (eventEnvelope, false, Rejected "offline");
            (eventEnvelope, false, Rejected "offline")]).
  - reflexivity.
  - vm_compute. lia.
Defined.

(** An engine with the startup drain pending (handle 1): [flushIn] cancels it
    and installs handle 2, [flushWithBackOff] leaves it; and on an engine
    with nothing pending [flushWithBackOff] arms one at the retry delay. *)
Lemma one_flushTimer_witness :
  pending (makeOfflineTransport startupOptions [(1, "e0")])
  = [{| timer_id := 1; timer_delay := 0; timer_head := false |}] /\
  pending (flushIn startupOptions 7000 true
                   (makeOfflineTransport startupOptions [(1, "e0")]))
  = [{| timer_id := 2; timer_delay := 7000; timer_head := true |}] /\
  flushTimer (flushIn startupOptions 7000 true
                      (makeOfflineTransport startupOptions [(1, "e0")]))
  = Some 2 /\
  flushWithBackOff startupOptions true (makeOfflineTransport startupOptions [(1, "e0")])
  = makeOfflineTransport startupOptions [(1, "e0")] /\
  pending (flushWithBackOff liveOptions false (makeOfflineTransport liveOptions []))
  = [{| timer_id := 1; timer_delay := 0; timer_head := false |}].
Proof.
  destruct (one_flushTimer sampleExternal startupOptions
              (makeOfflineTransport startupOptions [(1, "e0")])
              (reach_init sampleExternal startupOptions [(1, "e0")]))
    as [_ [Hreplace [Hpending _]]].
  destruct (one_flushTimer sampleExternal liveOptions
              (makeOfflineTransport liveOptions [])
              (reach_init sampleExternal liveOptions []))
    as [_ [_ [_ Hnone]]].
  split; [reflexivity |].
  destruct (Hreplace eq_refl 7000 true) as [Hp [Hf _]].
  split; [exact Hp |]. split; [exact Hf |].
  split.
  - apply (Hpending {| timer_id := 1; timer_delay := 0; timer_head := false |}).
    left. reflexivity.
  - apply (Hnone eq_refl). reflexivity.
Defined.

Lemma server_error_returned_witness :
  send sampleExternal liveOptions eventEnvelope false
       (Resolved (Some {| statusCode := Some 503; headers := None |}))
       (makeOfflineTransport liveOptions [(1, "e0")])
  = (Resolved (Some {| statusCode := Some 503; headers := None |}), false,
     record_call (CallTransportSend eventEnvelope)
                 (makeOfflineTransport liveOptions [(1, "e0")])).
Proof.
  apply (server_error_returned sampleExternal liveOptions
           (makeOfflineTransport liveOptions [(1, "e0")]) eventEnvelope false
           {| statusCode := Some 503; headers := None |} 503).
  - reflexivity.
  - reflexivity.
  - lia.
  - simpl. discriminate.
Defined.

Lemma replay_never_queued_witness :
  fst (fst (send sampleExternal liveOptions replayEnvelope false (Rejected "offline")
                 (makeOfflineTransport liveOptions [(1, "e0")])))
  = Rejected "offline".
Proof.
  apply (replay_never_queued sampleExternal liveOptions
           (makeOfflineTransport liveOptions [(1, "e0")]) replayEnvelope false "offline").
  - reflexivity.
  - exists {| item_type := "replay_event"; item_payload := "p" |}.
    simpl. auto.
Defined.

Lemma fullOffline_send_stores_witness :
  send sampleExternal offlineOptions eventEnvelope false (Rejected "offline")
       (makeOfflineTransport offlineOptions [])
  = (Resolved (Some emptyResponse), false,
     store_insert sampleExternal offlineOptions eventEnvelope false
                  (makeOfflineTransport offlineOptions [])).
Proof.
  apply (fullOffline_send_stores sampleExternal offlineOptions
           (makeOfflineTransport offlineOptions []) eventEnvelope (Rejected "offline")).
  - reflexivity.
  - reflexivity.
Defined.

Lemma retry_after_sets_delay_witness :
  armedTimer
    (snd (send sampleExternal liveOptions eventEnvelope false
               (Resolved (Some {| statusCode := Some 429;
                                  headers := Some {| x_sentry_rate_limits := None;
                                                     retry_after := Some "7" |} |}))
               (makeOfflineTransport liveOptions [])))
  = Some {| timer_id := 1; timer_delay := 7000; timer_head := false |}.
Proof.
  apply (retry_after_sets_delay sampleExternal liveOptions
           (makeOfflineTransport liveOptions []) eventEnvelope false
           {| statusCode := Some 429;
              headers := Some {| x_sentry_rate_limits := None;
                                 retry_after := Some "7" |} |}
           {| x_sentry_rate_limits := None; retry_after := Some "7" |} "7").
  - reflexivity.
  - reflexivity.
  - reflexivity.
  - discriminate.
  - reflexivity.
Defined.

Lemma missing_status_is_success_witness :
  armedTimer
    (snd (send sampleExternal liveOptions eventEnvelope false (Resolved None)
               (makeOfflineTransport liveOptions [])))
  = Some {| timer_id := 1; timer_delay := MIN_DELAY; timer_head := false |}.
Proof.
  apply (missing_status_is_success sampleExternal liveOptions
           (makeOfflineTransport liveOptions []) eventEnvelope false None).
  - reflexivity.
  - exact I.
  - reflexivity.
Defined.

(** C10 as stated fails on a response without statusCode that has a
    retry-after header: the drain is armed at 7000 ms, not at [MIN_DELAY]. *)
Lemma missing_status_not_min_delay :
  let r := {| statusCode := None;
              headers := Some {| x_sentry_rate_limits := None;
                                 retry_after := Some "7" |} |} in
  let st' := snd (send sampleExternal liveOptions eventEnvelope false
                       (Resolved (Some r)) (makeOfflineTransport liveOptions [])) in
  statusCode r = None /\
  armedTimer st' = Some {| timer_id := 1; timer_delay := 7000; timer_head := false |} /\
  ~ (exists t, armedTimer st' = Some t /\ timer_delay t = MIN_DELAY).
Proof.
  simpl. split; [reflexivity |]. split; [reflexivity |].
  intros [t [Harmed Hdelay]]. vm_compute in Harmed.
  inversion Harmed; subst. vm_compute in Hdelay. discriminate.
Qed.

(** C1 (the code departs from it): in full-offline mode, with two envelopes
    queued and no drain in progress, [flush(5000)] empties the queue and
    answers true; no head drain is armed and [sizeToFlush] stays 0.  The
    timeout is not negative. *)
Theorem flush_positive_timeout_purges :
  idb twoQueued = [(1, "e1"); (2, "e1")] /\
  sizeToFlush twoQueued = 0 /\
  flush offlineOptions (Some 5000) true twoQueued = (true, set_idb [] twoQueued) /\
  pending (snd (flush offlineOptions (Some 5000) true twoQueued)) = [] /\
  sizeToFlush (snd (flush offlineOptions (Some 5000) true twoQueued)) = 0.
Proof. repeat split. Qed.

(** The same call without a timeout starts the head drain and keeps the
    queue. *)
Example flush_without_timeout_drains :
  flush offlineOptions None true twoQueued
  = (true,
     set_flushTimer (Some 1)
       (set_nextTimerId 2
          (set_pending [{| timer_id := 1; timer_delay := 0; timer_head := true |}]
             (set_sizeToFlush 2 twoQueued)))).
Proof. reflexivity. Qed.

(** A full-offline session: three sends, each settled before the next call,
    are queued; [flush()] starts a head drain of three and waits on it, a
    second [flush()] during the drain answers false, and the timer callbacks
    with successful sends empty the queue and zero the counters. *)
Example fullOffline_drain :
  let st3 := run sampleExternal offlineOptions (makeOfflineTransport offlineOptions [])
                 [EvSend eventEnvelope (Resolved None);
                  EvSend eventEnvelope (Resolved None);
                  EvSend eventEnvelope (Resolved None)] in
  let st4 := snd (flush offlineOptions None true st3) in
  let st7 := run sampleExternal offlineOptions st4
                 [EvTimer 1 (Resolved None); EvTimer 2 (Resolved None);
                  EvTimer 3 (Resolved None); EvTimer 4 (Resolved None)] in
  Queue.size (idb st3) = 3 /\
  flushParks offlineOptions None st3 = true /\
  sizeToFlush st4 = 3 /\
  fst (flush offlineOptions None true st4) = false /\
  idb st7 = [] /\ sizeToFlush st7 = 0 /\ flushedCnt st7 = 0 /\ pending st7 = [].
Proof. repeat split. Qed.

(** A failed live send queues the envelope and arms a retry at
    [START_DELAY]; when the timer fires and the send goes through, the queue
    is empty again. *)
Example basic_retry :
  let st1 := run sampleExternal liveOptions (makeOfflineTransport liveOptions [])
                 [EvSend eventEnvelope (Rejected "offline")] in
  let st2 := run sampleExternal liveOptions st1 [EvTimer 1 (Resolved None)] in
  idb st1 = [(1, "e1")] /\
  pending st1 = [{| timer_id := 1; timer_delay := START_DELAY; timer_head := false |}] /\
  idb st2 = [] /\ retryDelay st2 = 0.
Proof. repeat split. Qed.

(** A head-drain step whose send fails puts the envelope back at key 0,
    below the entries that were behind it, takes back the count, and arms
    the retry at [START_DELAY]. *)
Example head_drain_failure_reinserts :
  let st1 := snd (flush offlineOptions None true twoQueued) in
  let st2 := fire sampleExternal offlineOptions 1 (Rejected "offline") st1 in
  idb st1 = [(1, "e1"); (2, "e1")] /\
  idb st2 = [(0, "e1"); (2, "e1")] /\
  flushedCnt st2 = 0 /\ sizeToFlush st2 = 2 /\
  pending st2 = [{| timer_id := 2; timer_delay := START_DELAY; timer_head := true |}].
Proof. repeat split. Qed.

(** * Order and positions in the queue *)

Module QueueOrder.
Import Queue.
Local Open Scope list_scope.

Lemma max_key_ge (keys : list Z) (k : Z) : In k keys -> k <= max_key keys.
Proof.
  induction keys as [| a keys IH]; simpl; [contradiction |].
  intros [-> | Hin]; [lia |]. specialize (IH Hin). lia.
Qed.

Lemma put_above (store : ObjectStore) (value : ItemValue) (key : Z) :
  Forall (fun k => k < key) (getAllKeys store) ->
  put store value key = store ++ [(key, value)].
Proof.
  induction store as [| [k v] rest IH]; simpl; intros Hall; [reflexivity |].
  inversion Hall as [| ? ? Hk Hrest]; subst.
  destruct (Z.ltb_spec key k); [lia |].
  destruct (Z.eqb_spec key k); [lia |].
  now rewrite IH.
Qed.

Lemma put_keys_in (store : ObjectStore) value key x :
  In x (getAllKeys (put store value key)) -> x = key \/ In x (getAllKeys store).
Proof.
  induction store as [| [k v] rest IH]; simpl.
  - intros [<- | []]. now left.
  - destruct (Z.ltb_spec key k); simpl.
    + intros [<- | Hin]; auto.
    + destruct (Z.eqb_spec key k); simpl.
      * intros [<- | Hin]; auto.
      * intros [<- | Hin]; auto. destruct (IH Hin); auto.
Qed.

Lemma delete_keys_in (store : ObjectStore) key x :
  In x (getAllKeys (delete store key)) -> In x (getAllKeys store).
Proof.
  induction store as [| [k v] rest IH]; simpl; [auto |].
  destruct (key =? k); simpl; [auto |]. intros [<- | Hin]; auto.
Qed.

Lemma delete_absent (store : ObjectStore) key :
  ~ In key (getAllKeys store) -> delete store key = store.
Proof.
  induction store as [| [k v] rest IH]; simpl; intros Hnot; [reflexivity |].
  destruct (Z.eqb_spec key k) as [-> | Hne]; [exfalso; auto |].
  rewrite IH; auto.
Qed.

Lemma delete_length (store : ObjectStore) key :
  (List.length (delete store key) <= List.length store)%nat.
Proof.
  induction store as [| [k v] rest IH]; simpl; [lia |].
  destruct (key =? k); simpl; lia.
Qed.

Lemma put_ascending (store : ObjectStore) value key :
  keysAscending store -> keysAscending (put store value key).
Proof.
  unfold keysAscending.
  induction store as [| [k v] rest IH]; simpl; intros Hsorted.
  - repeat constructor.
  - inversion Hsorted as [| ? ? Hrest Hall]; subst.
    destruct (Z.ltb_spec key k); simpl.
    + constructor; [exact Hsorted |].
      constructor; [exact H |].
      rewrite Forall_forall in *. intros x Hx. specialize (Hall x Hx). lia.
    + destruct (Z.eqb_spec key k) as [-> | Hne]; simpl.
      * exact Hsorted.
      * constructor; [now apply IH |].
        rewrite Forall_forall in *. intros x Hx.
        destruct (put_keys_in rest value key x Hx) as [-> | Hin]; [lia | auto].
Qed.

Lemma delete_ascending (store : ObjectStore) key :
  keysAscending store -> keysAscending (delete store key).
Proof.
  unfold keysAscending.
  induction store as [| [k v] rest IH]; simpl; intros Hsorted; [constructor |].
  inversion Hsorted as [| ? ? Hrest Hall]; subst.
  destruct (key =? k); simpl; [now apply IH |].
  constructor; [now apply IH |].
  rewrite Forall_forall in *. intros x Hx.
  apply Hall. now apply delete_keys_in in Hx.
Qed.

Lemma insert_ascending (store : ObjectStore) value maxQueueSize toStart :
  keysAscending store -> keysAscending (snd (insert store value maxQueueSize toStart)).
Proof.
  intros Hsorted. unfold insert.
  destruct (maxQueueSize <=? _); simpl; [exact Hsorted | now apply put_ascending].
Qed.

Lemma pop_ascending (store : ObjectStore) offset :
  keysAscending store -> keysAscending (snd (pop store offset)).
Proof.
  intros Hsorted. unfold pop.
  destruct (getAllKeys store); simpl; [exact Hsorted |].
  destruct (index _ offset); simpl; [now apply delete_ascending | exact Hsorted].
Qed.

Lemma reachable_ascending maxQueueSize store :
  Reachable maxQueueSize store -> keysAscending store.
Proof.
  intros [ops ->].
  assert (H : forall s, keysAscending s ->
                        keysAscending (fold_left (apply maxQueueSize) ops s)).
  { induction ops as [| op ops IH]; intros s Hs; simpl; [exact Hs |].
    apply IH. destruct op as [value toStart | offset |]; simpl.
    - now apply insert_ascending.
    - now apply pop_ascending.
    - constructor. }
  apply H. constructor.
Qed.

Lemma ascending_NoDup (store : ObjectStore) :
  keysAscending store -> NoDup (getAllKeys store).
Proof.
  unfold keysAscending. generalize (getAllKeys store). intros keys.
  induction 1 as [| k keys Hsorted IH Hall]; constructor; [| exact IH].
  intros Hin. rewrite Forall_forall in Hall. specialize (Hall k Hin). lia.
Qed.

Lemma get_middle (l1 l2 : ObjectStore) key value :
  ~ In key (getAllKeys l1) ->
  get (l1 ++ (key, value) :: l2) key = Some value.
Proof.
  induction l1 as [| [k v] l1 IH]; simpl; intros Hnot.
  - now rewrite Z.eqb_refl.
  - destruct (Z.eqb_spec key k) as [-> | Hne]; [exfalso; auto |].
    apply IH. auto.
Qed.

Lemma delete_middle (l1 l2 : ObjectStore) key value :
  ~ In key (getAllKeys l1) ->
  ~ In key (getAllKeys l2) ->
  delete (l1 ++ (key, value) :: l2) key = l1 ++ l2.
Proof.
  induction l1 as [| [k v] l1 IH]; simpl; intros Hnot1 Hnot2.
  - rewrite Z.eqb_refl. now apply delete_absent.
  - destruct (Z.eqb_spec key k) as [-> | Hne]; [exfalso; auto |].
    rewrite IH; auto.
Qed.

Lemma index_middle (l1 l2 : ObjectStore) key value :
  index (getAllKeys (l1 ++ (key, value) :: l2)) (Z.of_nat (List.length l1)) = Some key.
Proof.
  unfold index, getAllKeys.
  destruct (Z.ltb_spec (Z.of_nat (List.length l1)) 0); [lia |].
  rewrite Nat2Z.id, map_app. simpl.
  rewrite nth_error_app2; rewrite length_map; [| lia].
  now rewrite Nat.sub_diag.
Qed.

(** A pop at a position inside the queue yields the value at that position
    and takes out that entry, and no other. *)
Theorem pop_at_position (l1 l2 : ObjectStore) (key : Z) (value : ItemValue) :
  keysAscending (l1 ++ (key, value) :: l2) ->
  pop (l1 ++ (key, value) :: l2) (Z.of_nat (List.length l1))
  = (Resolved (Some value), l1 ++ l2).
Proof.
  intros Hsorted. apply ascending_NoDup in Hsorted.
  unfold getAllKeys in Hsorted. rewrite map_app in Hsorted. simpl in Hsorted.
  pose proof (NoDup_remove_2 _ _ _ Hsorted) as Hnot.
  assert (Hnot1 : ~ In key (getAllKeys l1)).
  { intros Hin. apply Hnot. apply in_or_app. now left. }
  assert (Hnot2 : ~ In key (getAllKeys l2)).
  { intros Hin. apply Hnot. apply in_or_app. now right. }
  unfold pop. rewrite index_middle.
  destruct (getAllKeys (l1 ++ (key, value) :: l2)) eqn:Hkeys.
  - unfold getAllKeys in Hkeys. rewrite map_app in Hkeys.
    destruct (map fst l1); discriminate.
  - now rewrite get_middle, delete_middle.
Qed.

Lemma pop_at_position_witness :
  pop [(1, "a"); (2, "b"); (3, "c")] 1 = (Resolved (Some "b"), [(1, "a"); (3, "c")]).
Proof.
  apply (pop_at_position [(1, "a")] [(3, "c")] 2 "b").
  unfold keysAscending. simpl. repeat constructor.
Defined.

Lemma insert_at_tail (store : ObjectStore) (value : ItemValue) (maxQueueSize : Z) :
  size store < maxQueueSize ->
  insert store value maxQueueSize false
  = (Resolved tt, store ++ [(max_key (getAllKeys store) + 1, value)]) /\
  Forall (fun k => k < max_key (getAllKeys store) + 1) (getAllKeys store) /\
  size (snd (insert store value maxQueueSize false)) = size store + 1.
Proof.
  intros Hroom.
  assert (Hall : Forall (fun k => k < max_key (getAllKeys store) + 1) (getAllKeys store)).
  { rewrite Forall_forall. intros k Hin. pose proof (max_key_ge _ _ Hin). lia. }
  assert (Hins : insert store value maxQueueSize false
                 = (Resolved tt, store ++ [(max_key (getAllKeys store) + 1, value)])).
  { unfold insert. fold (size store).
    destruct (Z.leb_spec maxQueueSize (size store)); [lia |].
    now rewrite put_above. }
  repeat split; auto.
  rewrite Hins. simpl. rewrite !QueueFacts.size_getAllKeys, length_app. simpl. lia.
Qed.

(** An insert at the tail of a queue that has room and whose keys are below
    2^53 appends the value behind every entry, at a key above all keys
    present and at most 2^53: no entry is replaced and the queue grows by
    one. *)
Theorem insert_tail_appends (store : ObjectStore) (value : ItemValue) (maxQueueSize : Z) :
  size store < maxQueueSize ->
  max_key (getAllKeys store) < 2 ^ 53 ->
  insert store value maxQueueSize false
  = (Resolved tt, store ++ [(max_key (getAllKeys store) + 1, value)]) /\
  Forall (fun k => k < max_key (getAllKeys store) + 1) (getAllKeys store) /\
  max_key (getAllKeys store) + 1 <= 2 ^ 53 /\
  size (snd (insert store value maxQueueSize false)) = size store + 1.
Proof.
  intros Hroom Hbound.
  destruct (insert_at_tail store value maxQueueSize Hroom) as [Hins [Hall Hsize]].
  repeat split; auto. lia.
Qed.

Lemma insert_tail_appends_witness :
  insert [(0, "a"); (4, "b")] "c" 30 false
  = (Resolved tt, [(0, "a"); (4, "b")] ++ [(max_key (getAllKeys [(0, "a"); (4, "b")]) + 1, "c")]).
Proof.
  apply (insert_tail_appends [(0, "a"); (4, "b")] "c" 30).
  - vm_compute. reflexivity.
  - vm_compute. reflexivity.
Defined.

Lemma popAll_values (store : ObjectStore) :
  keysAscending store -> popAll (List.length store) store = map snd store.
Proof.
  induction store as [| [k v] rest IH]; intros Hsorted; [reflexivity |].
  pose proof (pop_at_position [] rest k v Hsorted) as Hpop.
  change (pop ((k, v) :: rest) 0 = (Resolved (Some v), rest)) in Hpop.
  cbn [popAll List.length map snd]. rewrite Hpop. f_equal.
  apply IH. unfold keysAscending in *. simpl in Hsorted. now inversion Hsorted.
Qed.

Lemma insertAll_tail maxQueueSize values : forall store,
  size store + Z.of_nat (List.length values) <= maxQueueSize ->
  exists added,
    insertAll maxQueueSize store (tailInserts values) = store ++ added /\
    map snd added = values.
Proof.
  induction values as [| v values IH]; intros store Hroom.
  - exists []. simpl. now rewrite app_nil_r.
  - simpl List.length in Hroom.
    assert (Hlt : size store < maxQueueSize) by lia.
    destruct (insert_at_tail store v maxQueueSize Hlt) as [Hins [_ Hsize]].
    unfold tailInserts, insertAll in *. simpl. rewrite Hins. simpl.
    rewrite Hins in Hsize. simpl in Hsize.
    destruct (IH (store ++ [(max_key (getAllKeys store) + 1, v)])) as [added [Heq Hvals]];
      [lia |].
    exists ((max_key (getAllKeys store) + 1, v) :: added).
    rewrite Heq, <- app_assoc. simpl. now rewrite Hvals.
Qed.

Lemma insertAll_ascending maxQueueSize reqs : forall store,
  keysAscending store -> keysAscending (insertAll maxQueueSize store reqs).
Proof.
  unfold insertAll.
  induction reqs as [| [v toStart] reqs IH]; intros store Hsorted; simpl; [exact Hsorted |].
  apply IH. now apply insert_ascending.
Qed.

(** First in, first out: values inserted at the tail of a queue with room
    for them come out of repeated pops after the values that were queued
    before, in the order they went in. *)
Theorem tail_inserts_pop_in_order (maxQueueSize : Z) (store : ObjectStore)
        (values : list ItemValue) :
  Reachable maxQueueSize store ->
  size store + Z.of_nat (List.length values) <= maxQueueSize ->
  popAll (List.length store + List.length values)
         (insertAll maxQueueSize store (tailInserts values))
  = map snd store ++ values.
Proof.
  intros Hreach Hroom.
  pose proof (reachable_ascending _ _ Hreach) as Hsorted.
  pose proof (insertAll_ascending maxQueueSize (tailInserts values) store Hsorted) as Hafter.
  destruct (insertAll_tail maxQueueSize values store Hroom) as [added [Heq Hvals]].
  rewrite Heq in *.
  replace (List.length store + List.length values)%nat
    with (List.length (store ++ added)).
  - rewrite (popAll_values _ Hafter), map_app. now rewrite Hvals.
  - rewrite length_app. f_equal. rewrite <- Hvals. now rewrite length_map.
Qed.

Lemma tail_inserts_pop_in_order_witness :
  popAll (List.length [(1, "a")] + List.length ["b"; "c"])
         (insertAll 3 [(1, "a")] (tailInserts ["b"; "c"]))
  = map snd [(1, "a")] ++ ["b"; "c"].
Proof.
  apply (tail_inserts_pop_in_order 3 [(1, "a")] ["b"; "c"]).
  - exists [OpInsert "a" false]. reflexivity.
  - vm_compute. discriminate.
Defined.

(** A value put at the head of a queue that has room and no entry at key 0
    is what the next pop yields, and that pop leaves the queue as it was
    before the insert. *)
Theorem head_insert_then_pop (maxQueueSize : Z) (store : ObjectStore) (value : ItemValue) :
  Reachable maxQueueSize store ->
  size store < maxQueueSize ->
  ~ In 0 (getAllKeys store) ->
  pop (snd (insert store value maxQueueSize true)) 0 = (Resolved (Some value), store).
Proof.
  intros Hreach Hroom Hzero.
  assert (Hpos : Forall (fun k => 0 < k) (getAllKeys store)).
  { apply QueueFacts.reachable_keysNonNegative in Hreach.
    unfold keysNonNegative in Hreach. rewrite Forall_forall in *.
    intros k Hin. specialize (Hreach k Hin).
    assert (k <> 0) by (intros ->; contradiction). lia. }
  unfold insert. fold (size store).
  destruct (Z.leb_spec maxQueueSize (size store)); [lia |]. simpl.
  rewrite (QueueFacts.put_below store value 0 Hpos).
  unfold pop, index. simpl. rewrite (delete_absent store 0 Hzero). reflexivity.
Qed.

Lemma head_insert_then_pop_witness :
  pop (snd (insert [(1, "a"); (2, "b")] "c" 30 true)) 0
  = (Resolved (Some "c"), [(1, "a"); (2, "b")]).
Proof.
  apply (head_insert_then_pop 30 [(1, "a"); (2, "b")] "c").
  - exists [OpInsert "a" false; OpInsert "b" false]. reflexivity.
  - vm_compute. reflexivity.
  - simpl. intros [H | [H | []]]; discriminate.
Defined.

Lemma pop_size (store : ObjectStore) offset :
  size (snd (pop store offset)) <= size store.
Proof.
  unfold pop. destruct (getAllKeys store) eqn:Hkeys; simpl; [lia |].
  destruct (index _ offset); simpl; [| lia].
  rewrite !QueueFacts.size_getAllKeys.
  pose proof (delete_length store z0). lia.
Qed.

(** Whatever inserts, pops and clears a queue has been through from empty,
    it holds at most [maxQueueSize] entries. *)
Theorem reachable_size_bounded (maxQueueSize : Z) (store : ObjectStore) :
  0 <= maxQueueSize ->
  Reachable maxQueueSize store ->
  size store <= maxQueueSize.
Proof.
  intros Hmax [ops ->].
  assert (H : forall s, size s <= maxQueueSize ->
                        size (fold_left (apply maxQueueSize) ops s) <= maxQueueSize).
  { induction ops as [| op ops IH]; intros s Hs; simpl; [exact Hs |].
    apply IH. destruct op as [value toStart | offset |]; simpl.
    - now apply QueueFacts.insert_size.
    - pose proof (pop_size s offset). lia.
    - exact Hmax. }
  apply H. exact Hmax.
Qed.

Lemma reachable_size_bounded_witness :
  size [(2, "b"); (3, "c")] <= 2.
Proof.
  apply (reachable_size_bounded 2 [(2, "b"); (3, "c")]).
  - lia.
  - exists [OpInsert "a" false; OpInsert "b" false; OpPop 0; OpInsert "c" false;
            OpInsert "d" false].
    reflexivity.
Defined.

End QueueOrder.

(** * The re-insert of a head-drain step *)

Module HeadReinsert.
Import Queue.
Local Open Scope list_scope.








End HeadReinsert.

(** * The engine over whole runs *)

Section EngineRuns.

Variable ext : External.
Variable options : OfflineTransportOptions.

Local Open Scope list_scope.

Local Abbreviation send := (send ext options).
Local Abbreviation flushIn := (flushIn options).
Local Abbreviation flushWithBackOff := (flushWithBackOff options).
Local Abbreviation store_insert := (store_insert ext options).
Local Abbreviation store_pop := (store_pop ext).
Local Abbreviation shouldQueue := (shouldQueue options).
Local Abbreviation storesOnly := (storesOnly options).
Local Abbreviation nextDelay := (nextDelay ext).
Local Abbreviation flush := (flush options).
Local Abbreviation fire := (fire ext options).
Local Abbreviation timerCallback := (timerCallback ext options).
Local Abbreviation handle := (handle ext options).
Local Abbreviation run := (run ext options).
Local Abbreviation makeOfflineTransport := (makeOfflineTransport options).
Local Abbreviation queueCapacity := (queueCapacity options).

(** *** The counters under the helpers *)

Lemma store_insert_counters env toStart st :
  sizeToFlush (store_insert env toStart st) = sizeToFlush st /\
  flushedCnt (store_insert env toStart st) = flushedCnt st.
Proof. unfold store_insert. destruct (serializeEnvelope ext env); simpl; auto. Qed.

Lemma store_pop_counters offset st :
  sizeToFlush (snd (store_pop offset st)) = sizeToFlush st /\
  flushedCnt (snd (store_pop offset st)) = flushedCnt st.
Proof.
  unfold store_pop.
  destruct (Queue.pop (idb st) offset) as [[d | e] idb']; simpl; auto.
  destruct d as [d |]; simpl; auto.
  destruct (truthy_string d); simpl; auto.
  destruct (parseEnvelope ext d); simpl; auto.
Qed.

Lemma flushIn_counters delay head st :
  sizeToFlush (flushIn delay head st) = sizeToFlush st /\
  flushedCnt (flushIn delay head st) = flushedCnt st.
Proof.
  unfold flushIn. destruct (createStore options); simpl; auto.
  destruct (flushTimer st) as [id |]; simpl; auto.
  destruct (truthy_number id); simpl; auto.
Qed.

Lemma flushWithBackOff_counters head st :
  sizeToFlush (flushWithBackOff head st) = sizeToFlush st /\
  flushedCnt (flushWithBackOff head st) = flushedCnt st.
Proof.
  unfold flushWithBackOff. destruct (flushTimerSet st); auto.
  apply flushIn_counters.
Qed.

Lemma shouldQueue_counters env e delay st :
  sizeToFlush (snd (shouldQueue env e delay st)) = sizeToFlush st /\
  flushedCnt (snd (shouldQueue env e delay st)) = flushedCnt st.
Proof.
  unfold shouldQueue.
  destruct (envelopeContainsItemType env notQueuedTypes); simpl; auto.
  destruct (shouldStore options); simpl; auto.
Qed.

Lemma send_counters env head tr st :
  sizeToFlush (snd (send env head tr st)) = sizeToFlush st /\
  (flushedCnt (snd (send env head tr st)) = flushedCnt st \/
   head = true /\ flushedCnt (snd (send env head tr st)) = flushedCnt st - 1).
Proof.
  unfold send. destruct (storesOnly head); simpl.
  - destruct (store_insert_counters env false st) as [-> ->]. auto.
  - destruct tr as [result | e].
    + destruct (nextDelay result) as [delay |]; simpl; [| auto].
      destruct head; simpl;
        match goal with
        | |- context [flushIn ?d ?b ?s] =>
            destruct (flushIn_counters d b s) as [-> ->]
        end; simpl; auto.
    + destruct (createStore options); [| simpl; auto].
      match goal with
      | |- context [shouldQueue ?a ?b ?c ?d] =>
          pose proof (shouldQueue_counters a b c d) as Hq;
          destruct (shouldQueue a b c d) as [queue st1]
      end.
      simpl in Hq. destruct Hq as [Hs Hc].
      destruct queue; simpl; [| rewrite Hs, Hc; auto].
      destruct head; simpl;
        match goal with
        | |- context [flushWithBackOff ?b ?s] =>
            destruct (flushWithBackOff_counters b s) as [-> ->]
        end; simpl;
        destruct (store_insert_counters env true st1) as [Hs1 Hc1];
        destruct (store_insert_counters env false st1) as [Hs2 Hc2];
        rewrite ?Hs1, ?Hc1, ?Hs2, ?Hc2, Hs, Hc; auto.
Qed.

(** *** The counters of a head drain *)






(** *** Live mode never sets up a head drain *)

Lemma flushIn_nonhead_pending delay st :
  Forall (fun t => timer_head t = false) (pending st) ->
  Forall (fun t => timer_head t = false) (pending (flushIn delay false st)).
Proof.
  intros Hall. unfold flushIn. destruct (createStore options); simpl; [| exact Hall].
  assert (Hfilter : forall id, Forall (fun t => timer_head t = false)
                                      (pending (clearTimeout id st))).
  { intros id. simpl. rewrite Forall_forall in *. intros t Hin.
    apply filter_In in Hin. now apply Hall. }
  destruct (flushTimer st) as [id |]; [destruct (truthy_number id) |]; simpl;
    constructor; auto; apply (Hfilter id).
Qed.

Lemma send_NoHeadDrain env tr st :
  NoHeadDrain st -> NoHeadDrain (snd (send env false tr st)).
Proof.
  unfold NoHeadDrain. intros [Hs [Hc Hall]].
  destruct (send_counters env false tr st) as [Hs' [Hc' | [Hhead _]]]; [| discriminate].
  rewrite Hs', Hc'. repeat split; auto.
  unfold send. destruct (storesOnly false); simpl.
  - now rewrite (proj1 (proj2 (proj2 (store_insert_frame ext options env false st)))).
  - destruct tr as [result | e].
    + destruct (nextDelay result) as [delay |]; simpl; [| exact Hall].
      now apply flushIn_nonhead_pending.
    + destruct (createStore options); [| exact Hall].
      match goal with
      | |- context [shouldQueue ?a ?b ?c ?d] =>
          pose proof (shouldQueue_frame options a b c d) as Hq;
          destruct (shouldQueue a b c d) as [queue st1]
      end.
      simpl in Hq. destruct Hq as [_ [_ [Hp _]]].
      destruct queue; simpl; [| now rewrite Hp].
      unfold flushWithBackOff.
      assert (Hins : Forall (fun t => timer_head t = false)
                            (pending (store_insert env false st1))).
      { now rewrite (proj1 (proj2 (proj2 (store_insert_frame ext options env false st1)))), Hp. }
      destruct (flushTimerSet (store_insert env false st1)); [exact Hins |].
      now apply flushIn_nonhead_pending.
Qed.

Lemma fire_NoHeadDrain id tr st :
  NoHeadDrain st -> NoHeadDrain (fire id tr st).
Proof.
  intros Hinv. unfold fire.
  destruct (find (fun t => timer_id t =? id) (pending st)) as [t |] eqn:Hfind;
    [| exact Hinv].
  assert (Hhead : timer_head t = false).
  { destruct Hinv as [_ [_ Hall]]. rewrite Forall_forall in Hall.
    apply Hall. now apply find_some in Hfind. }
  rewrite Hhead. unfold timerCallback.
  set (st0 := set_flushTimer None (clearTimeout id st)).
  assert (H0 : NoHeadDrain st0).
  { destruct Hinv as [Hs [Hc Hall]]. repeat split; auto. simpl.
    rewrite Forall_forall in *. intros x Hin. apply filter_In in Hin. now apply Hall. }
  pose proof (store_pop_counters (sizeToFlush st0 - flushedCnt st0) st0) as [Hs Hc].
  pose proof (store_pop_frame ext (sizeToFlush st0 - flushedCnt st0) st0)
    as [_ [_ [Hp _]]].
  destruct (store_pop (sizeToFlush st0 - flushedCnt st0) st0) as [found st1].
  simpl in Hs, Hc, Hp.
  assert (H1 : NoHeadDrain st1).
  { unfold NoHeadDrain. rewrite Hs, Hc, Hp. exact H0. }
  destruct found as [env |]; [| exact H1].
  pose proof (send_NoHeadDrain env tr st1 H1) as Hsend.
  destruct (send env false tr st1) as [[res parks] st3]. simpl in Hsend.
  destruct parks; exact Hsend.
Qed.

(** Outside full-offline mode the engine never runs a head drain: in every
    state it can reach both counters are 0 and every pending timeout is a
    plain drain, whose callback pops the oldest entry. *)
Theorem live_mode_no_head_drain (st : Engine) :
  fullOffline options = false ->
  Reachable ext options st ->
  sizeToFlush st = 0 /\ flushedCnt st = 0 /\
  Forall (fun t => timer_head t = false) (pending st).
Proof.
  intros Hlive. induction 1 as [persisted | st ev Hreach IH].
  - unfold makeOfflineTransport.
    destruct (flushAtStartup options); [| repeat split; constructor].
    match goal with
    | |- context [flushWithBackOff ?b ?s] =>
        destruct (flushWithBackOff_counters b s) as [-> ->]
    end. repeat split.
    unfold flushWithBackOff. simpl. apply flushIn_nonhead_pending. constructor.
  - destruct ev as [env tr | t inner | id tr]; simpl.
    + now apply send_NoHeadDrain.
    + unfold flush. rewrite Hlive. exact IH.
    + now apply fire_NoHeadDrain.
Qed.

(** *** The queue stays within its capacity *)

Lemma store_insert_size env toStart st :
  Queue.size (idb st) <= queueCapacity ->
  Queue.size (idb (store_insert env toStart st)) <= queueCapacity.
Proof.
  intros Hle. unfold store_insert.
  destruct (serializeEnvelope ext env); simpl; [| exact Hle].
  now apply QueueFacts.insert_size.
Qed.

Lemma store_pop_size offset st :
  Queue.size (idb (snd (store_pop offset st))) <= Queue.size (idb st).
Proof.
  unfold store_pop. pose proof (QueueOrder.pop_size (idb st) offset) as Hpop.
  destruct (Queue.pop (idb st) offset) as [[d | e] idb']; simpl in *; [| lia].
  destruct d as [d |]; simpl; auto.
  destruct (truthy_string d); simpl; auto.
  destruct (parseEnvelope ext d); simpl; auto.
Qed.

Lemma send_size env head tr st :
  Queue.size (idb st) <= queueCapacity ->
  Queue.size (idb (snd (send env head tr st))) <= queueCapacity.
Proof.
  intros Hle. unfold send. destruct (storesOnly head); simpl.
  - now apply store_insert_size.
  - destruct tr as [result | e].
    + destruct (nextDelay result) as [delay |]; simpl; [| exact Hle].
      destruct head; simpl;
        now rewrite (proj1 (proj2 (flushIn_frame options _ _ _))).
    + destruct (createStore options); [| exact Hle].
      match goal with
      | |- context [shouldQueue ?a ?b ?c ?d] =>
          pose proof (shouldQueue_frame options a b c d) as Hq;
          destruct (shouldQueue a b c d) as [queue st1]
      end.
      simpl in Hq. destruct Hq as [_ [Hidb _]].
      assert (H1 : Queue.size (idb st1) <= queueCapacity) by now rewrite Hidb.
      destruct queue; simpl; [| exact H1].
      destruct head; simpl;
        rewrite (proj1 (proj2 (flushWithBackOff_frame options _ _))); simpl.
      * now apply (store_insert_size env true st1).
      * now apply store_insert_size.
Qed.

Lemma handle_size st ev :
  Queue.size (idb st) <= queueCapacity ->
  Queue.size (idb (handle st ev)) <= queueCapacity.
Proof.
  intros Hle.
  assert (Hcap : 0 <= queueCapacity).
  { rewrite QueueFacts.size_getAllKeys in Hle. lia. }
  destruct ev as [env tr | t inner | id tr]; simpl.
  - now apply send_size.
  - unfold flush. destruct (fullOffline options); [| exact Hle].
    destruct (flushGuard t); simpl.
    + destruct (createStore options); [exact Hcap | exact Hle].
    + destruct (0 <? sizeToFlush st); [exact Hle |].
      cbv zeta. simpl.
      destruct (0 <? (if createStore options then store_size st else 0)); simpl;
        [| exact Hle].
      now rewrite (proj1 (proj2 (flushWithBackOff_frame options _ _))).
  - unfold fire.
    destruct (find (fun t => timer_id t =? id) (pending st)) as [t |]; [| exact Hle].
    unfold timerCallback.
    remember (timer_head t) as head eqn:Hh. clear Hh.
    set (st0 := set_flushTimer None (clearTimeout id st)).
    assert (H0 : Queue.size (idb st0) <= queueCapacity) by exact Hle.
    assert (Hend : forall s, Queue.size (idb s) <= queueCapacity ->
                             Queue.size (idb (flushEnd head s)) <= queueCapacity).
    { intros s Hs. unfold flushEnd.
      destruct (head && (flushedCnt s =? sizeToFlush s)); exact Hs. }
    set (offset := if head then 0 else sizeToFlush st0 - flushedCnt st0).
    destruct (if head then flushedCnt st0 <? sizeToFlush st0 else true);
      [| now apply Hend].
    pose proof (store_pop_size offset st0) as Hpop.
    destruct (store_pop offset st0) as [found st1]. simpl in Hpop.
    assert (H1 : Queue.size (idb st1) <= queueCapacity) by lia.
    destruct found as [env |]; [| now apply Hend].
    set (st2 := if head then set_flushedCnt (flushedCnt st1 + 1) st1 else st1).
    assert (H2 : Queue.size (idb st2) <= queueCapacity)
      by (subst st2; destruct head; exact H1).
    pose proof (send_size env head tr st2 H2) as Hsend.
    destruct (send env head tr st2) as [[res parks] st3]. simpl in Hsend.
    destruct parks; [exact Hsend | now apply Hend].
Qed.

(** Started over a store that is within [maxQueueSize || 30], the engine
    keeps it so through every send, flush and timer callback. *)
Theorem engine_queue_bounded (persisted : Queue.ObjectStore) (evs : list Event) :
  Queue.size persisted <= queueCapacity ->
  Queue.size (idb (run (makeOfflineTransport persisted) evs)) <= queueCapacity.
Proof.
  intros Hle.
  assert (Hinit : Queue.size (idb (makeOfflineTransport persisted)) <= queueCapacity).
  { unfold makeOfflineTransport. destruct (flushAtStartup options); [| exact Hle].
    now rewrite (proj1 (proj2 (flushWithBackOff_frame options _ _))). }
  revert Hinit. generalize (makeOfflineTransport persisted).
  unfold run. induction evs as [| ev evs IH]; intros st Hst; simpl; [exact Hst |].
  apply IH. now apply handle_size.
Qed.

(** *** Without a store *)

Lemma send_without_store env head tr st :
  createStore options = false ->
  fst (fst (send env head tr st)) = tr /\
  idb (snd (send env head tr st)) = idb st /\
  pending (snd (send env head tr st)) = pending st /\
  flushTimer (snd (send env head tr st)) = flushTimer st.
Proof.
  intros Hstore. unfold send, storesOnly, flushIn. rewrite Hstore. simpl.
  destruct tr as [result | e]; [| simpl; auto].
  destruct (nextDelay result) as [delay |]; [| simpl; auto].
  destruct head; simpl; auto.
Qed.

Lemma handle_without_store st ev :
  createStore options = false ->
  pending st = [] ->
  idb (handle st ev) = idb st /\ pending (handle st ev) = [] /\
  flushTimer (handle st ev) = flushTimer st.
Proof.
  intros Hstore Hpending. destruct ev as [env tr | t inner | id tr]; simpl.
  - destruct (send_without_store env false tr st Hstore) as [_ [Hidb [Hp Hf]]].
    rewrite Hidb, Hp, Hf. auto.
  - unfold flush, flushWithBackOff, flushIn. rewrite Hstore.
    destruct (fullOffline options); [| simpl; auto].
    destruct (flushGuard t); simpl; [auto |].
    destruct (0 <? sizeToFlush st); simpl; [auto |].
    destruct (flushTimerSet (set_sizeToFlush 0 st)); simpl; auto.
  - unfold fire. rewrite Hpending. simpl. auto.
Qed.

(** Without [createStore] the engine is the inner transport: whatever has
    happened before, [send] settles exactly as the inner transport does, the
    object store is never written, and no timeout is ever pending. *)
Theorem without_store_transparent (persisted : Queue.ObjectStore) (evs : list Event)
        (env : Envelope) (head : bool) (tr : TransportResult) :
  createStore options = false ->
  let st := run (makeOfflineTransport persisted) evs in
  fst (fst (send env head tr st)) = tr /\
  idb st = persisted /\ pending st = [] /\ flushTimer st = None.
Proof.
  intros Hstore st.
  assert (Hinv : idb st = persisted /\ pending st = [] /\ flushTimer st = None).
  { subst st.
    assert (Hinit : idb (makeOfflineTransport persisted) = persisted /\
                    pending (makeOfflineTransport persisted) = [] /\
                    flushTimer (makeOfflineTransport persisted) = None).
    { unfold makeOfflineTransport, flushWithBackOff, flushIn. rewrite Hstore.
      destruct (flushAtStartup options); simpl; auto. }
    revert Hinit. generalize (makeOfflineTransport persisted).
    unfold run. induction evs as [| ev evs IH]; intros s Hs; simpl; [exact Hs |].
    apply IH. destruct Hs as [Hidb [Hp Hf]].
    destruct (handle_without_store s ev Hstore Hp) as [Hidb' [Hp' Hf']].
    rewrite Hidb', Hf'. auto. }
  split; [| exact Hinv].
  apply (send_without_store env head tr st Hstore).
Qed.

(** *** When [send] rejects *)

(** [send] rejects only with the error of the inner transport, and only when
    the envelope is not to be queued: there is no store, or the envelope has
    a replay or client-report item, or [shouldStore] answers false for it. *)
Theorem send_rejects_iff (env : Envelope) (head : bool) (tr : TransportResult)
        (st : Engine) (e : Error) :
  fst (fst (send env head tr st)) = Rejected e <->
  storesOnly head = false /\
  tr = Rejected e /\
  (createStore options = false \/
   envelopeContainsItemType env notQueuedTypes = true \/
   exists f, shouldStore options = Some f /\
             f env e (backOff (retryDelay st)) = false).
Proof.
  unfold send, shouldQueue.
  destruct (storesOnly head); simpl.
  - split; [discriminate | intros [Hf _]; discriminate].
  - destruct tr as [result | e0].
    + split.
      * destruct (nextDelay result); [destruct head |]; simpl; discriminate.
      * intros [_ [Heq _]]. discriminate.
    + destruct (createStore options) eqn:Hstore.
      * destruct (envelopeContainsItemType env notQueuedTypes) eqn:Hcontains; simpl.
        -- split.
           ++ intros Heq. inversion Heq; subst. repeat split; auto.
           ++ intros [_ [Heq _]]. exact Heq.
        -- destruct (shouldStore options) as [f |] eqn:Hshould; simpl.
           ++ destruct (f env e0 (backOff (retryDelay st))) eqn:Hf; simpl.
              ** split.
                 --- destruct head; simpl; discriminate.
                 --- intros [_ [Heq [Hn | [Hn | [g [Hg Hgf]]]]]]; try discriminate.
                     inversion Heq; subst. inversion Hg; subst. congruence.
              ** split.
                 --- intros Heq. inversion Heq; subst. repeat split; auto.
                     right. right. exists f. auto.
                 --- intros [_ [Heq _]]. exact Heq.
           ++ split.
              ** destruct head; simpl; discriminate.
              ** intros [_ [Heq [Hn | [Hn | [g [Hg _]]]]]]; discriminate.
      * simpl. split.
        -- intros Heq. inversion Heq; subst. repeat split; auto.
        -- intros [_ [Heq _]]. exact Heq.
Qed.

(** *** A head drain that stopped short *)

Lemma handle_Stalled st ev :
  Stalled options st ->
  Stalled options (handle st ev) /\ calls (handle st ev) = calls st.
Proof.
  intros [Hstore [Hfull [Hp [Hf Hsize]]]].
  destruct ev as [env tr | t inner | id tr]; simpl.
  - unfold send, storesOnly. rewrite Hstore, Hfull. simpl.
    destruct (store_insert_frame ext options env false st) as [_ [Hf' [Hp' [_ Hc']]]].
    destruct (store_insert_counters env false st) as [Hs' _].
    unfold Stalled. rewrite Hf', Hp', Hs', Hc'. auto 6.
  - unfold flush. rewrite Hfull, Hstore.
    destruct (flushGuard t); simpl.
    + unfold Stalled. simpl. auto 6.
    + destruct (Z.ltb_spec 0 (sizeToFlush st)); [| lia]. simpl.
      unfold Stalled. auto 6.
  - unfold fire. rewrite Hp. simpl. unfold Stalled. auto 6.
Qed.

(** Once a head drain has stopped with its count still standing and no
    timeout pending, nothing gets it going again: through every later send,
    flush and timer event the engine stays that way, the inner transport is
    not called any more, and [flush()] answers false and changes nothing. *)
Theorem stalled_forever (st : Engine) (evs : list Event) :
  Stalled options st ->
  Stalled options (run st evs) /\
  calls (run st evs) = calls st /\
  forall inner, flush None inner (run st evs) = (false, run st evs).
Proof.
  intros Hstalled.
  assert (Hrun : Stalled options (run st evs) /\ calls (run st evs) = calls st).
  { revert st Hstalled. unfold run.
    induction evs as [| ev evs IH]; intros st Hstalled; simpl; [auto |].
    destruct (handle_Stalled st ev Hstalled) as [Hnext Hcalls].
    destruct (IH _ Hnext) as [Hfin Hc]. split; [exact Hfin | congruence]. }
  destruct Hrun as [Hfin Hcalls].
  split; [exact Hfin |]. split; [exact Hcalls |].
  intros inner. destruct Hfin as [_ [Hfull [_ [_ Hsize]]]].
  unfold flush. rewrite Hfull. simpl.
  destruct (Z.ltb_spec 0 (sizeToFlush (run st evs))); [reflexivity | lia].
Qed.

(** *** One step of a drain *)

Lemma set_idb_set_idb a b st : set_idb a (set_idb b st) = set_idb a st.
Proof. reflexivity. Qed.

Lemma fireArmed_callback tr st t :
  flushTimer st = Some (timer_id t) ->
  pending st = [t] ->
  fireArmed ext options tr st = timerCallback (timer_head t) tr (set_pending [] st).
Proof.
  intros Hf Hp. unfold fireArmed, fire. rewrite Hf, Hp. simpl.
  rewrite Z.eqb_refl. unfold clearTimeout. rewrite Hp. simpl.
  now rewrite Z.eqb_refl.
Qed.

Lemma store_pop_head st k s q env :
  idb st = (k, s) :: q ->
  keysAscending (idb st) ->
  truthy_string s = true ->
  parseEnvelope ext s = Resolved env ->
  store_pop 0 st = (Some env, set_idb q st).
Proof.
  intros Hidb Hsorted Htruthy Hparse. unfold store_pop.
  rewrite Hidb in *.
  pose proof (QueueOrder.pop_at_position [] q k s Hsorted) as Hpop.
  change (Queue.pop ((k, s) :: q) 0 = (Resolved (Some s), q)) in Hpop.
  now rewrite Hpop, Htruthy, Hparse.
Qed.

(** The callback of the armed timeout, with an entry to pop and a send that
    goes through. *)
Lemma drain_step_success st t k s q env result delay :
  createStore options = true ->
  flushTimer st = Some (timer_id t) ->
  pending st = [t] ->
  idb st = (k, s) :: q ->
  keysAscending (idb st) ->
  truthy_string s = true ->
  parseEnvelope ext s = Resolved env ->
  nextDelay result = Some delay ->
  (if timer_head t then flushedCnt st < sizeToFlush st
   else sizeToFlush st - flushedCnt st = 0 /\ fullOffline options = false) ->
  fireArmed ext options (Resolved result) st
  = set_flushTimer (Some (nextTimerId st))
      (set_nextTimerId (nextTimerId st + 1)
         (set_pending [{| timer_id := nextTimerId st; timer_delay := delay;
                          timer_head := timer_head t |}]
            (set_retryDelay 0
               (record_call (CallTransportSend env)
                  (set_flushedCnt (if timer_head t then flushedCnt st + 1
                                   else flushedCnt st)
                     (set_idb q st)))))).
Proof.
  intros Hstore Hf Hp Hidb Hsorted Htruthy Hparse Hnext Hcnt.
  rewrite (fireArmed_callback _ st t Hf Hp).
  unfold timerCallback. cbv zeta.
  destruct (timer_head t) eqn:Hhead.
  - assert (HcanPop : (flushedCnt (set_flushTimer None (set_pending [] st))
                       <? sizeToFlush (set_flushTimer None (set_pending [] st))) = true).
    { simpl. now apply Z.ltb_lt. }
    rewrite HcanPop.
    rewrite (store_pop_head (set_flushTimer None (set_pending [] st)) k s q env
               Hidb Hsorted Htruthy Hparse).
    unfold send, storesOnly. rewrite andb_false_r. rewrite Hnext, Hstore.
    unfold flushIn. rewrite Hstore. simpl. destruct st; reflexivity.
  - destruct Hcnt as [Hzero Hlive].
    replace (sizeToFlush (set_flushTimer None (set_pending [] st))
             - flushedCnt (set_flushTimer None (set_pending [] st))) with 0
      by (simpl; lia).
    rewrite (store_pop_head (set_flushTimer None (set_pending [] st)) k s q env
               Hidb Hsorted Htruthy Hparse).
    unfold send, storesOnly. rewrite Hlive, andb_false_r. simpl. rewrite Hnext.
    unfold flushIn, flushEnd. rewrite Hstore. simpl. destruct st; reflexivity.
Qed.

(** The callback of the armed timeout when there is nothing left for it:
    a head drain that has flushed all it counted, or a plain drain that
    finds the queue empty. *)
Lemma drain_step_done st t tr :
  flushTimer st = Some (timer_id t) ->
  pending st = [t] ->
  (if timer_head t then flushedCnt st = sizeToFlush st
   else idb st = [] /\ sizeToFlush st - flushedCnt st = 0) ->
  let st' := fireArmed ext options tr st in
  calls st' = calls st /\ idb st' = idb st /\ pending st' = [] /\
  flushTimer st' = None /\ retryDelay st' = retryDelay st /\
  (timer_head t = true -> sizeToFlush st' = 0 /\ flushedCnt st' = 0).
Proof.
  intros Hf Hp Hdone. simpl.
  rewrite (fireArmed_callback _ st t Hf Hp).
  unfold timerCallback. cbv zeta.
  destruct (timer_head t) eqn:Hhead.
  - assert (HcanPop : (flushedCnt (set_flushTimer None (set_pending [] st))
                       <? sizeToFlush (set_flushTimer None (set_pending [] st))) = false).
    { simpl. apply Z.ltb_ge. lia. }
    rewrite HcanPop. unfold flushEnd. simpl.
    rewrite Hdone, Z.eqb_refl. simpl. auto 7.
  - destruct Hdone as [Hidb Hzero].
    replace (sizeToFlush (set_flushTimer None (set_pending [] st))
             - flushedCnt (set_flushTimer None (set_pending [] st))) with 0
      by (simpl; lia).
    unfold store_pop. simpl. rewrite Hidb. simpl.
    repeat split; auto; discriminate.
Qed.

Lemma nextDelay_of_success result :
  returnsEarly result = false -> exists delay, nextDelay result = Some delay.
Proof.
  intros Hearly. destruct (nextDelay result) as [delay |] eqn:Hnext.
  - now exists delay.
  - apply nextDelay_returnsEarly in Hnext. congruence.
Qed.

(** A drain whose sends all go through hands the queued envelopes to the
    inner transport one by one in queue order, and ends with the queue empty
    and no timeout pending. *)
Lemma drain_in_order final envs : forall results st t,
  createStore options = true ->
  flushTimer st = Some (timer_id t) ->
  pending st = [t] ->
  holdsEnvelopes ext (idb st) envs ->
  keysAscending (idb st) ->
  Forall (fun r => returnsEarly r = false) results ->
  List.length results = List.length envs ->
  (if timer_head t
   then sizeToFlush st - flushedCnt st = Z.of_nat (List.length envs)
   else sizeToFlush st - flushedCnt st = 0 /\ fullOffline options = false) ->
  let st' := drainSteps ext options st (map Resolved results ++ [final]) in
  calls st' = rev (map CallTransportSend envs) ++ calls st /\
  idb st' = [] /\ pending st' = [] /\ flushTimer st' = None /\
  (timer_head t = true -> sizeToFlush st' = 0 /\ flushedCnt st' = 0).
Proof.
  induction envs as [| env envs IH];
    intros results st t Hstore Hf Hp Hholds Hsorted Hok Hlen Hcnt.
  - destruct results; [| discriminate]. simpl.
    inversion Hholds as [Hidb |]; subst.
    assert (Hdone : if timer_head t then flushedCnt st = sizeToFlush st
                    else idb st = [] /\ sizeToFlush st - flushedCnt st = 0).
    { destruct (timer_head t); [simpl in Hcnt; lia |].
      split; [now symmetry | tauto]. }
    destruct (drain_step_done st t final Hf Hp Hdone)
      as [Hc [Hi [Hpend [Hft [_ Hz]]]]].
    rewrite Hc, Hi, <- Hidb. auto.
  - destruct results as [| result results]; [discriminate |].
    inversion Hholds as [| [k s] env' q envs' [Htruthy Hparse] Hrest Hidb Henvs]; subst.
    simpl in Htruthy, Hparse.
    inversion Hok as [| ? ? Hearly Hok']; subst.
    destruct (nextDelay_of_success result Hearly) as [delay Hnext].
    assert (Hstep : if timer_head t then flushedCnt st < sizeToFlush st
                    else sizeToFlush st - flushedCnt st = 0 /\
                         fullOffline options = false).
    { destruct (timer_head t); [simpl List.length in Hcnt; lia | exact Hcnt]. }
    symmetry in Hidb.
    pose proof (drain_step_success st t k s q env result delay Hstore Hf Hp Hidb
                  Hsorted Htruthy Hparse Hnext Hstep) as Hfire.
    simpl. rewrite Hfire.
    match goal with
    | |- context [drainSteps ext options ?s1 _] => set (st1 := s1)
    end.
    set (t1 := {| timer_id := nextTimerId st; timer_delay := delay;
                  timer_head := timer_head t |}).
    assert (Hsorted1 : keysAscending (idb st1)).
    { subst st1. simpl. unfold keysAscending in *. rewrite Hidb in Hsorted.
      simpl in Hsorted. now inversion Hsorted. }
    assert (Hcnt1 : if timer_head t1
                    then sizeToFlush st1 - flushedCnt st1 = Z.of_nat (List.length envs)
                    else sizeToFlush st1 - flushedCnt st1 = 0 /\
                         fullOffline options = false).
    { subst st1 t1. simpl. destruct (timer_head t); simpl.
      - simpl List.length in Hcnt. lia.
      - exact Hcnt. }
    assert (Hlen1 : List.length results = List.length envs)
      by (simpl in Hlen; lia).
    destruct (IH results st1 t1 Hstore eq_refl eq_refl Hrest Hsorted1 Hok' Hlen1 Hcnt1)
      as [Hc [Hi [Hpend [Hft Hz]]]].
    fold (drainSteps ext options st1 (map Resolved results ++ [final])).
    rewrite Hc. subst st1. simpl. rewrite <- app_assoc. simpl. auto.
Qed.

(** *** A head drain from start to end *)

(** Outside full-offline mode, an engine that is started with
    [flushAtStartup] over a store a previous session left behind drains it
    by plain drains: when every send goes through, the inner transport
    receives the stored envelopes each once and in key order, and the queue
    ends up empty with no timeout pending. *)
Theorem startup_drain_delivers_in_order (persisted : Queue.ObjectStore)
        (stored : list Envelope) (results : list (option Response))
        (final : TransportResult) :
  createStore options = true ->
  fullOffline options = false ->
  flushAtStartup options = true ->
  holdsEnvelopes ext persisted stored ->
  keysAscending persisted ->
  Forall (fun r => returnsEarly r = false) results ->
  List.length results = List.length stored ->
  let st := drainSteps ext options (makeOfflineTransport persisted)
                       (map Resolved results ++ [final]) in
  calls st = rev (map CallTransportSend stored) /\
  idb st = [] /\ pending st = [] /\ flushTimer st = None.
Proof.
  intros Hstore Hlive Hstartup Hholds Hsorted Hok Hlen.
  assert (Hinit : makeOfflineTransport persisted
                  = set_flushTimer (Some 1)
                      (set_nextTimerId 2
                         (set_pending [{| timer_id := 1; timer_delay := 0;
                                          timer_head := false |}]
                            {| idb := persisted; retryDelay := 0; flushTimer := None;
                               sizeToFlush := 0; flushedCnt := 0; pending := [];
                               nextTimerId := 1; calls := [] |}))).
  { unfold makeOfflineTransport, flushWithBackOff, flushIn.
    rewrite Hstartup, Hstore. reflexivity. }
  rewrite Hinit.
  match goal with
  | |- context [drainSteps ext options ?s _] => set (st0 := s)
  end.
  set (t := {| timer_id := 1; timer_delay := 0; timer_head := false |}).
  assert (Hcnt : if timer_head t
                 then sizeToFlush st0 - flushedCnt st0 = Z.of_nat (List.length stored)
                 else sizeToFlush st0 - flushedCnt st0 = 0 /\
                      fullOffline options = false).
  { subst t st0. simpl. auto. }
  destruct (drain_in_order final stored results st0 t Hstore eq_refl eq_refl
              Hholds Hsorted Hok Hlen Hcnt) as [Hc [Hi [Hpend [Hft _]]]].
  cbv zeta. split; [| repeat split; assumption].
  etransitivity; [exact Hc |]. subst st0. simpl calls. apply app_nil_r.
Qed.

(** *** The store adapter *)

(** What [store.insert] has put at the tail, [store.pop] at the last
    position gives back, and the store is as before: provided the codec
    takes the envelope to a non-empty value that parses back to it and the
    queue had room. *)
Theorem store_insert_then_pop (st : Engine) (env : Envelope) :
  codecRoundTrips ext env ->
  keysAscending (idb st) ->
  Queue.size (idb st) < queueCapacity ->
  store_pop (Queue.size (idb st)) (store_insert env false st) = (Some env, st).
Proof.
  intros [s [Hser [Htruthy Hparse]]] Hsorted Hroom.
  destruct (QueueOrder.insert_at_tail (idb st) s queueCapacity Hroom)
    as [Hins _].
  pose proof (QueueOrder.insert_ascending (idb st) s queueCapacity false Hsorted)
    as Hasc.
  rewrite Hins in Hasc. simpl in Hasc.
  unfold store_insert, store_pop. rewrite Hser, Hins. simpl.
  rewrite QueueFacts.size_getAllKeys.
  rewrite (QueueOrder.pop_at_position (idb st) [] _ s Hasc).
  rewrite Htruthy, Hparse, app_nil_r. now destruct st.
Qed.

(** A stored value that is empty or that the codec cannot parse is lost:
    [store.pop] deletes the entry and yields [undefined]. *)
Theorem store_pop_drops_undecodable (st : Engine) (k : Z) (s : Queue.ItemValue)
        (q : Queue.ObjectStore) :
  idb st = (k, s) :: q ->
  keysAscending (idb st) ->
  (truthy_string s = false \/ exists e, parseEnvelope ext s = Rejected e) ->
  store_pop 0 st = (None, set_idb q st).
Proof.
  intros Hidb Hsorted Hbad. unfold store_pop. rewrite Hidb in *.
  pose proof (QueueOrder.pop_at_position [] q k s Hsorted) as Hpop.
  change (Queue.pop ((k, s) :: q) 0 = (Resolved (Some s), q)) in Hpop.
  rewrite Hpop. destruct (truthy_string s); [| reflexivity].
  destruct Hbad as [Hf | [e He]]; [discriminate | now rewrite He].
Qed.

(** *** A head-drain step that does not go through *)

(** When the inner transport answers a head-drain step with a server error
    that [send] returns at once, the envelope popped for the step is not put
    back, no timeout is armed, and, with entries of the drain still to go,
    the drain has stopped short for good. *)
Theorem head_step_server_error_stalls (st : Engine) (t : Timer) (env : Envelope)
        (envs : list Envelope) (result : option Response) :
  createStore options = true ->
  fullOffline options = true ->
  flushTimer st = Some (timer_id t) ->
  pending st = [t] ->
  timer_head t = true ->
  holdsEnvelopes ext (idb st) (env :: envs) ->
  keysAscending (idb st) ->
  0 <= flushedCnt st ->
  flushedCnt st + 1 < sizeToFlush st ->
  returnsEarly result = true ->
  let st' := fireArmed ext options (Resolved result) st in
  holdsEnvelopes ext (idb st') envs /\
  calls st' = CallTransportSend env :: calls st /\
  retryDelay st' = retryDelay st /\
  Stalled options st'.
Proof.
  intros Hstore Hfull Hf Hp Hhead Hholds Hsorted Hnonneg Hcnt Hearly.
  inversion Hholds as [| [k s] env' q envs' [Htruthy Hparse] Hrest Hidb Henvs]; subst.
  simpl in Htruthy, Hparse. symmetry in Hidb.
  apply (proj2 (nextDelay_returnsEarly ext result)) in Hearly.
  cbv zeta. rewrite (fireArmed_callback _ st t Hf Hp).
  unfold timerCallback. cbv zeta. rewrite Hhead.
  assert (HcanPop : (flushedCnt (set_flushTimer None (set_pending [] st))
                     <? sizeToFlush (set_flushTimer None (set_pending [] st))) = true).
  { simpl. apply Z.ltb_lt. lia. }
  rewrite HcanPop.
  rewrite (store_pop_head (set_flushTimer None (set_pending [] st)) k s q env
             Hidb Hsorted Htruthy Hparse).
  unfold send, storesOnly. rewrite andb_false_r. rewrite Hearly.
  unfold flushEnd. simpl.
  destruct (Z.eqb_spec (flushedCnt st + 1) (sizeToFlush st)); [lia |]. simpl.
  repeat split; auto. simpl. lia.
Qed.

(** *** A purge while a head drain is under way *)

(** When [flush] is called with a timeout that is not 0 while a head drain
    is armed, the queue is emptied but the counters stay; the pending
    callback then finds nothing to pop, arms nothing, and the drain has
    stopped short for good. *)
Theorem purge_during_drain_stalls (st : Engine) (t : Timer) (n : Z) (inner : bool)
        (tr : TransportResult) :
  createStore options = true ->
  fullOffline options = true ->
  flushTimer st = Some (timer_id t) ->
  pending st = [t] ->
  timer_head t = true ->
  0 <= flushedCnt st < sizeToFlush st ->
  n <> 0 ->
  let st' := fireArmed ext options tr (snd (flush (Some n) inner st)) in
  idb st' = [] /\ calls st' = calls st /\ Stalled options st'.
Proof.
  intros Hstore Hfull Hf Hp Hhead Hcnt Hn.
  cbv zeta. rewrite (flush_nonzero_purges options n inner st Hfull Hstore Hn).
  simpl snd.
  rewrite (fireArmed_callback tr (set_idb [] st) t Hf Hp).
  unfold timerCallback. cbv zeta. rewrite Hhead.
  assert (HcanPop : (flushedCnt (set_flushTimer None (set_pending [] (set_idb [] st)))
                     <? sizeToFlush (set_flushTimer None (set_pending [] (set_idb [] st))))
                    = true).
  { simpl. apply Z.ltb_lt. lia. }
  rewrite HcanPop. unfold store_pop, flushEnd. simpl.
  destruct (Z.eqb_spec (flushedCnt st) (sizeToFlush st)); [lia |].
  unfold Stalled. simpl. repeat split; auto. lia.
Qed.

(** *** [flush] and the head drain it starts *)

(** In full-offline mode with a store, [flush()] without a timeout (or with
    0), when no head drain is counted, takes the size of the queue as
    [sizeToFlush] and leaves the queue as it is.  With entries queued and no
    timeout set it arms a head drain at the current retry delay and waits on
    it, so that the call settles only when the drain has run.  With a
    timeout set already, or with an empty queue, it arms nothing and
    resolves true at once. *)
Theorem flush_arms_head_drain (t : option Z) (inner : bool) (st : Engine) :
  fullOffline options = true ->
  createStore options = true ->
  t = None \/ t = Some 0 ->
  sizeToFlush st <= 0 ->
  let st' := snd (flush t inner st) in
  sizeToFlush st' = Queue.size (idb st) /\
  idb st' = idb st /\
  calls st' = calls st /\
  (0 < Queue.size (idb st) -> flushTimerSet st = false ->
   flushParks options t st = true /\
   flushTimer st' = Some (nextTimerId st) /\
   armedTimer st' = Some {| timer_id := nextTimerId st; timer_delay := retryDelay st;
                            timer_head := true |}) /\
  (0 < Queue.size (idb st) -> flushTimerSet st = true ->
   flushParks options t st = false /\
   flush t inner st = (true, set_sizeToFlush (Queue.size (idb st)) st)) /\
  (Queue.size (idb st) = 0 ->
   flushParks options t st = false /\
   flush t inner st = (true, set_sizeToFlush 0 st)).
Proof.
  intros Hfull Hstore Ht Hsize.
  assert (Hguard : flushGuard t = false) by (destruct Ht as [-> | ->]; reflexivity).
  assert (Hnot : (0 <? sizeToFlush st) = false) by (apply Z.ltb_ge; exact Hsize).
  assert (Hflush : flush t inner st
                   = if 0 <? Queue.size (idb st)
                     then (true, flushWithBackOff true
                                   (set_sizeToFlush (Queue.size (idb st)) st))
                     else (true, set_sizeToFlush (Queue.size (idb st)) st)).
  { unfold flush. rewrite Hfull, Hstore, Hguard, Hnot. reflexivity. }
  assert (Hparks : flushParks options t st
                   = (0 <? Queue.size (idb st)) && negb (flushTimerSet st) && true).
  { unfold flushParks. rewrite Hfull, Hstore, Hguard, Hnot. reflexivity. }
  cbv zeta. rewrite Hflush, Hparks.
  destruct (Z.ltb_spec 0 (Queue.size (idb st))) as [Hpos | Hempty].
  - simpl snd.
    destruct (flushWithBackOff_frame options true
                (set_sizeToFlush (Queue.size (idb st)) st)) as [_ [Hidb Hcalls]].
    destruct (flushWithBackOff_counters true
                (set_sizeToFlush (Queue.size (idb st)) st)) as [Hs _].
    rewrite Hs, Hidb, Hcalls. simpl.
    split; [reflexivity |]. split; [reflexivity |]. split; [reflexivity |].
    split; [| split].
    + intros _ Hset. rewrite Hset. split; [reflexivity |].
      unfold flushWithBackOff.
      change (flushTimerSet (set_sizeToFlush (Queue.size (idb st)) st))
        with (flushTimerSet st).
      rewrite Hset.
      destruct (flushIn_arms options (retryDelay st) true
                  (set_sizeToFlush (Queue.size (idb st)) st) Hstore) as [Hf [Ha _]].
      split; [exact Hf | exact Ha].
    + intros _ Hset. rewrite Hset. split; [reflexivity |].
      unfold flushWithBackOff.
      change (flushTimerSet (set_sizeToFlush (Queue.size (idb st)) st))
        with (flushTimerSet st).
      now rewrite Hset.
    + intros Hzero. lia.
  - simpl. split; [reflexivity |]. split; [reflexivity |]. split; [reflexivity |].
    split; [intros; lia |]. split; [intros; lia |].
    intros Hzero. rewrite Hzero. auto.
Qed.

(** A full-offline engine that is made, without the startup drain, over a
    store in which a previous session left envelopes: [flush()] takes their
    number as [sizeToFlush], arms a head drain and waits on it; when every
    send of the drain goes through, the inner transport receives the stored
    envelopes each once and in key order, and the drain ends with the queue
    empty, both counters at 0 and no timeout pending. *)
Theorem head_drain_delivers_in_order (persisted : Queue.ObjectStore)
        (stored : list Envelope) (results : list (option Response))
        (final : TransportResult) (inner : bool) :
  createStore options = true ->
  fullOffline options = true ->
  flushAtStartup options = false ->
  holdsEnvelopes ext persisted stored ->
  keysAscending persisted ->
  Forall (fun r => returnsEarly r = false) results ->
  List.length results = List.length stored ->
  let st1 := makeOfflineTransport persisted in
  let st2 := snd (flush None inner st1) in
  let st3 := drainSteps ext options st2 (map Resolved results ++ [final]) in
  sizeToFlush st2 = Queue.size persisted /\
  idb st2 = persisted /\
  (stored <> [] -> flushParks options None st1 = true) /\
  calls st3 = rev (map CallTransportSend stored) /\
  idb st3 = [] /\ sizeToFlush st3 = 0 /\ flushedCnt st3 = 0 /\ pending st3 = [].
Proof.
  intros Hstore Hfull Hstartup Hholds Hsorted Hok Hlen.
  assert (Hinit : makeOfflineTransport persisted
                  = {| idb := persisted; retryDelay := 0; flushTimer := None;
                       sizeToFlush := 0; flushedCnt := 0; pending := [];
                       nextTimerId := 1; calls := [] |}).
  { unfold makeOfflineTransport. now rewrite Hstartup. }
  cbv zeta. rewrite Hinit.
  set (st0 := {| idb := persisted; retryDelay := 0; flushTimer := None;
                 sizeToFlush := 0; flushedCnt := 0; pending := [];
                 nextTimerId := 1; calls := [] |}).
  assert (Hsize : Queue.size persisted = Z.of_nat (List.length stored)).
  { rewrite QueueFacts.size_getAllKeys. f_equal.
    unfold holdsEnvelopes in Hholds. now apply Forall2_length in Hholds. }
  destruct stored as [| env envs].
  - inversion Hholds; subst. destruct results; [| discriminate].
    unfold flush. rewrite Hfull, Hstore. simpl.
    repeat split; auto.
  - assert (Hpos : (0 <? Queue.size persisted) = true).
    { apply Z.ltb_lt. rewrite Hsize. simpl List.length. lia. }
    set (t := {| timer_id := 1; timer_delay := 0; timer_head := true |}).
    set (st2 := set_flushTimer (Some 1)
                  (set_nextTimerId 2
                     (set_pending [t] (set_sizeToFlush (Queue.size persisted) st0)))).
    assert (Hflush : flush None inner st0 = (true, st2)).
    { unfold flush. rewrite Hfull, Hstore.
      change (flushGuard None) with false. cbv iota.
      change (0 <? sizeToFlush st0) with false. cbv iota zeta.
      change (store_size st0) with (Queue.size persisted).
      change (sizeToFlush (set_sizeToFlush (Queue.size persisted) st0))
        with (Queue.size persisted).
      rewrite Hpos. unfold flushWithBackOff, flushIn. rewrite Hstore. reflexivity. }
    assert (Hparks : flushParks options None st0 = true).
    { unfold flushParks. rewrite Hfull, Hstore.
      change (flushGuard None) with false. cbv iota.
      change (0 <? sizeToFlush st0) with false. cbv iota zeta.
      change (store_size st0) with (Queue.size persisted).
      change (sizeToFlush (set_sizeToFlush (Queue.size persisted) st0))
        with (Queue.size persisted).
      rewrite Hpos. reflexivity. }
    rewrite Hflush. simpl snd.
    assert (Hcnt : if timer_head t
                   then sizeToFlush st2 - flushedCnt st2
                        = Z.of_nat (List.length (env :: envs))
                   else sizeToFlush st2 - flushedCnt st2 = 0 /\
                        fullOffline options = false).
    { subst t st2. cbn [timer_head sizeToFlush flushedCnt set_flushTimer
                        set_nextTimerId set_pending set_sizeToFlush st0].
      subst st0. cbn [flushedCnt]. lia. }
    destruct (drain_in_order final (env :: envs) results st2 t Hstore eq_refl eq_refl
                Hholds Hsorted Hok Hlen Hcnt) as [Hc [Hi [Hpend [_ Hz]]]].
    destruct (Hz eq_refl) as [Hs0 Hc0].
    split; [reflexivity |]. split; [reflexivity |]. split; [intros _; exact Hparks |].
    split; [| repeat split; assumption].
    etransitivity; [exact Hc |]. subst st2 st0. simpl calls. apply app_nil_r.
Qed.

End EngineRuns.


Lemma live_mode_no_head_drain_witness :
  sizeToFlush (handle sampleExternal liveOptions (makeOfflineTransport liveOptions [])
                      (EvSend eventEnvelope (Rejected "offline"))) = 0.
Proof.
  apply (live_mode_no_head_drain sampleExternal liveOptions).
  - reflexivity.
  - apply reach_step. apply reach_init.
Defined.

Lemma engine_queue_bounded_witness :
  Queue.size
    (idb (run sampleExternal liveOptions (makeOfflineTransport liveOptions [(1, "e0")])
              [EvSend eventEnvelope (Rejected "offline");
               EvSend eventEnvelope (Rejected "offline")]))
  <= queueCapacity liveOptions.
Proof.
  apply (engine_queue_bounded sampleExternal liveOptions).
  vm_compute. discriminate.
Defined.

Lemma without_store_transparent_witness :
  fst (fst (send sampleExternal
                 {| createStore := false; flushAtStartup := true; fullOffline := true;
                    shouldStore := None; maxQueueSize := None |}
                 eventEnvelope false (Rejected "offline")
                 (run sampleExternal
                      {| createStore := false; flushAtStartup := true;
                         fullOffline := true; shouldStore := None;
                         maxQueueSize := None |}
                      (makeOfflineTransport
                         {| createStore := false; flushAtStartup := true;
                            fullOffline := true; shouldStore := None;
                            maxQueueSize := None |} [(1, "e0")])
                      [EvFlush None true; EvSend eventEnvelope (Resolved None)])))
  = Rejected "offline".
Proof.
  apply (without_store_transparent sampleExternal
           {| createStore := false; flushAtStartup := true; fullOffline := true;
              shouldStore := None; maxQueueSize := None |}
           [(1, "e0")] [EvFlush None true; EvSend eventEnvelope (Resolved None)]
           eventEnvelope false (Rejected "offline")).
  reflexivity.
Defined.

(** The engine after a head drain of two was answered 503 at its first
    step. *)
Lemma stalled_forever_witness :
  calls (run sampleExternal offlineOptions
             (fire sampleExternal offlineOptions 1
                   (Resolved (Some {| statusCode := Some 503; headers := None |}))
                   (snd (flush offlineOptions None true twoQueued)))
             [EvFlush None true; EvSend eventEnvelope (Resolved None);
              EvFlush (Some 0) true; EvTimer 1 (Resolved None)])
  = [CallTransportSend {| env_headers := "e1"; env_items := [] |}].
Proof.
  apply (stalled_forever sampleExternal offlineOptions
           (fire sampleExternal offlineOptions 1
                 (Resolved (Some {| statusCode := Some 503; headers := None |}))
                 (snd (flush offlineOptions None true twoQueued)))).
  unfold Stalled. vm_compute. repeat split.
Defined.

Lemma store_insert_then_pop_witness :
  store_pop sampleExternal (Queue.size (idb (makeOfflineTransport liveOptions [(2, "e0")])))
            (store_insert sampleExternal liveOptions (plainEnvelope "e1") false
                          (makeOfflineTransport liveOptions [(2, "e0")]))
  = (Some (plainEnvelope "e1"), makeOfflineTransport liveOptions [(2, "e0")]).
Proof.
  apply (store_insert_then_pop sampleExternal liveOptions
           (makeOfflineTransport liveOptions [(2, "e0")]) (plainEnvelope "e1")).
  - exists "e1". repeat split.
  - unfold keysAscending. simpl. repeat constructor.
  - vm_compute. reflexivity.
Defined.

Lemma store_pop_drops_undecodable_witness :
  store_pop sampleExternal 0 (makeOfflineTransport liveOptions [(1, ""); (2, "e0")])
  = (None, set_idb [(2, "e0")] (makeOfflineTransport liveOptions [(1, ""); (2, "e0")])).
Proof.
  apply (store_pop_drops_undecodable sampleExternal
           (makeOfflineTransport liveOptions [(1, ""); (2, "e0")]) 1 "" [(2, "e0")]).
  - reflexivity.
  - unfold keysAscending. simpl. repeat constructor.
  - left. reflexivity.
Defined.

Lemma startup_drain_delivers_in_order_witness :
  calls (drainSteps sampleExternal startupOptions
           (makeOfflineTransport startupOptions [(1, "a"); (4, "b")])
           (map Resolved [None; None] ++ [Resolved None])%list)
  = rev (map CallTransportSend [plainEnvelope "a"; plainEnvelope "b"]).
Proof.
  apply (startup_drain_delivers_in_order sampleExternal startupOptions
           [(1, "a"); (4, "b")] [plainEnvelope "a"; plainEnvelope "b"]
           [None; None] (Resolved None)).
  - reflexivity.
  - reflexivity.
  - reflexivity.
  - repeat constructor.
  - unfold keysAscending. simpl. repeat constructor.
  - repeat constructor.
  - reflexivity.
Defined.

Lemma head_step_server_error_stalls_witness :
  Stalled offlineOptions
    (fireArmed sampleExternal offlineOptions
               (Resolved (Some {| statusCode := Some 503; headers := None |}))
               (snd (flush offlineOptions None true
                       (set_idb [(1, "a"); (2, "b")]
                                (makeOfflineTransport offlineOptions []))))).
Proof.
  apply (head_step_server_error_stalls sampleExternal offlineOptions
           (snd (flush offlineOptions None true
                   (set_idb [(1, "a"); (2, "b")]
                            (makeOfflineTransport offlineOptions []))))
           {| timer_id := 1; timer_delay := 0; timer_head := true |}
           (plainEnvelope "a") [plainEnvelope "b"]
           (Some {| statusCode := Some 503; headers := None |})).
  - reflexivity.
  - reflexivity.
  - reflexivity.
  - reflexivity.
  - reflexivity.
  - repeat constructor.
  - unfold keysAscending. simpl. repeat constructor.
  - vm_compute. discriminate.
  - vm_compute. reflexivity.
  - reflexivity.
Defined.

Lemma purge_during_drain_stalls_witness :
  Stalled offlineOptions
    (fireArmed sampleExternal offlineOptions (Resolved None)
               (snd (flush offlineOptions (Some (-1)) true
                       (snd (flush offlineOptions None true twoQueued))))).
Proof.
  apply (purge_during_drain_stalls sampleExternal offlineOptions
           (snd (flush offlineOptions None true twoQueued))
           {| timer_id := 1; timer_delay := 0; timer_head := true |}
           (-1) true (Resolved None)).
  - reflexivity.
  - reflexivity.
  - reflexivity.
  - reflexivity.
  - reflexivity.
  - vm_compute. split; [discriminate | reflexivity].
  - discriminate.
Defined.

Lemma reachable_delayInRange_witness :
  delayInRange
    (handle sampleExternal liveOptions (makeOfflineTransport liveOptions [])
            (EvSend eventEnvelope (Rejected "offline"))).
Proof.
  apply (reachable_delayInRange sampleExternal liveOptions).
  apply reach_step. apply reach_init.
Defined.

Lemma flush_arms_head_drain_witness :
  flushParks offlineOptions None twoQueued = true /\
  armedTimer (snd (flush offlineOptions None true twoQueued))
  = Some {| timer_id := 1; timer_delay := 0; timer_head := true |}.
Proof.
  assert (Hsize : sizeToFlush twoQueued <= 0) by (vm_compute; discriminate).
  assert (Hqueued : 0 < Queue.size (idb twoQueued)) by (vm_compute; reflexivity).
  destruct (flush_arms_head_drain offlineOptions None true twoQueued
              eq_refl eq_refl (or_introl eq_refl) Hsize)
    as [_ [_ [_ [Harm _]]]].
  destruct (Harm Hqueued eq_refl) as [Hparks [_ Harmed]].
  split; [exact Hparks | exact Harmed].
Defined.

Lemma head_drain_delivers_in_order_witness :
  calls (drainSteps sampleExternal offlineOptions
           (snd (flush offlineOptions None true
                   (makeOfflineTransport offlineOptions [(1, "a"); (3, "b"); (4, "c")])))
           (map Resolved [None; None; None] ++ [Resolved None])%list)
  = rev (map CallTransportSend
             [plainEnvelope "a"; plainEnvelope "b"; plainEnvelope "c"]).
Proof.
  apply (head_drain_delivers_in_order sampleExternal offlineOptions
           [(1, "a"); (3, "b"); (4, "c")]
           [plainEnvelope "a"; plainEnvelope "b"; plainEnvelope "c"]
           [None; None; None] (Resolved None) true).
  - reflexivity.
  - reflexivity.
  - reflexivity.
  - repeat constructor.
  - unfold keysAscending. simpl. repeat constructor.
  - repeat constructor.
  - reflexivity.
Defined.
